(** * companionsKQML: a shallow embedding of [companionsKQMLModule.py]

    The development follows the source file top to bottom: the Python values
    and exceptions the module works with, the KQML objects of pykqml, the
    marshaller [listify], the query reply builder [response_to_query], the
    port file reader [get_port], the discovery routine
    [check_for_companions], the outbound connection ([connect], [send],
    [send_generic]) and the listener's [state] field. *)

From Equations Require Import Equations.
From stdpp Require Import base option list strings gmap pretty.
From Stdlib Require Import Ascii ZArith Lia.

Set Warnings "-register-all".

Local Open Scope string_scope.
Local Open Scope Z_scope.
Local Open Scope list_scope.

(** ** Python exceptions and results *)

(** The exception classes the modelled code can raise. *)
Inductive exn : Type :=
  | IndexError
  | AssertionError
  | TypeError
  | KeyError
  | ValueError
  | AttributeError
  | JSONDecodeError
  | OSError.

(** A computation either returns a value or raises. *)
Inductive result (A : Type) : Type :=
  | Ok (a : A)
  | Raise (e : exn).
Arguments Ok {A} a.
Arguments Raise {A} e.

#[global] Instance result_ret : MRet result := fun A a => Ok a.

#[global] Instance result_bind : MBind result := fun A B k m =>
  match m with
  | Ok a => k a
  | Raise e => Raise e
  end.

(** ** Strings

    A Rocq [ascii] stands for the Python character with the same code
    point (0 to 255). *)

(** [c.isspace()], the characters [str.split()] splits on. *)
Definition isspace (c : ascii) : bool :=
  let n := nat_of_ascii c in
  ((9 <=? n) && (n <=? 13) || (28 <=? n) && (n <=? 32)
   || (n =? 133) || (n =? 160))%nat.

(** [' ' in s] *)
Fixpoint has_space (s : string) : bool :=
  match s with
  | EmptyString => false
  | String c s' => Ascii.eqb c " " || has_space s'
  end.

(** Some character of [s] is whitespace. *)
Fixpoint has_whitespace (s : string) : bool :=
  match s with
  | EmptyString => false
  | String c s' => isspace c || has_whitespace s'
  end.

(** A tab is whitespace but not a space. *)
Definition tab : string := String (ascii_of_nat 9) "".

(** [s[0]] and [s[-1]]; [None] is Python's IndexError on the empty string. *)
Definition str_first (s : string) : option ascii :=
  match s with
  | EmptyString => None
  | String c _ => Some c
  end.

Fixpoint str_last (s : string) : option ascii :=
  match s with
  | EmptyString => None
  | String c EmptyString => Some c
  | String _ s' => str_last s'
  end.

(** [s[:-1]] *)
Fixpoint str_init (s : string) : string :=
  match s with
  | EmptyString => EmptyString
  | String _ EmptyString => EmptyString
  | String c s' => String c (str_init s')
  end.

(** [s[1:-1]] *)
Definition str_inner (s : string) : string :=
  match s with
  | EmptyString => EmptyString
  | String _ s' => str_init s'
  end.

(** [s.split()]: the maximal runs of non-whitespace characters, in order.
    [word] is the run being read. *)
Fixpoint split_from (word : string) (s : string) : list string :=
  match s with
  | EmptyString => if decide (word = "") then [] else [word]
  | String c s' =>
      if isspace c
      then (if decide (word = "") then split_from "" s'
            else word :: split_from "" s')
      else split_from (word +:+ String c "") s'
  end.

Definition split (s : string) : list string := split_from "" s.

(** ** KQML objects (pykqml's [KQMLList], [KQMLToken], [KQMLString]) *)

Inductive kqml : Type :=
  | KQMLList (data : list kqml)
  | KQMLToken (data : string)
  | KQMLString (data : string).

(** [KQMLString.to_string]: the text in double quotes, each double quote
    escaped with a backslash. *)
Fixpoint escape_quotes (s : string) : string :=
  match s with
  | EmptyString => EmptyString
  | String c s' =>
      if Ascii.eqb c (ascii_of_nat 34)
      then String (ascii_of_nat 92) (String c (escape_quotes s'))
      else String c (escape_quotes s')
  end.

Definition dquote : string := String (ascii_of_nat 34) "".

(** [' '.join(l)] *)
Fixpoint join_spaces (l : list string) : string :=
  match l with
  | [] => ""
  | [x] => x
  | x :: l' => x +:+ " " +:+ join_spaces l'
  end.

(** [str(k)] for a KQML object. *)
Fixpoint kqml_str (k : kqml) : string :=
  match k with
  | KQMLList l => "(" +:+ join_spaces (map kqml_str l) +:+ ")"
  | KQMLToken s => s
  | KQMLString s => dquote +:+ escape_quotes s +:+ dquote
  end.

(** ** Native values handed to the marshaller *)

(** Objects of the classes [listify] has no rule for, with their [str()]:
    integers, [None], KQML objects, and any other object, given by its
    string form. *)
Inductive pyobj : Type :=
  | OInt (n : Z)
  | ONone
  | OKqml (k : kqml)
  | OOther (str_form : string).

(** [str(o)] *)
Definition obj_str (o : pyobj) : string :=
  match o with
  | OInt n => pretty n
  | ONone => "None"
  | OKqml k => kqml_str k
  | OOther s => s
  end.

(** The Python values [listify] distinguishes by [isinstance]. *)
Inductive pyval : Type :=
  | PList (items : list pyval)
  | PTuple (items : list pyval)
  | PStr (s : string)
  | PDict (items : list (pyval * pyval))
  | PBool (b : bool)
  | PObj (o : pyobj).

(** ** The marshaller [listify] *)

(** [possible_list[0] == '(' and possible_list[-1] == ')'] *)
Definition wrapped (s : string) : bool :=
  match str_first s, str_last s with
  | Some c1, Some c2 => Ascii.eqb c1 "(" && Ascii.eqb c2 ")"
  | _, _ => false
  end.

(** [map] that hands each element its membership proof; the recursive
    calls of [listify_str] below are justified by it. *)
Fixpoint map_in {A B : Type} (l : list A) : (∀ x, In x l → B) → list B :=
  match l with
  | [] => fun _ => []
  | x :: l' => fun f =>
      f x (or_introl eq_refl) :: map_in l' (fun y H => f y (or_intror H))
  end.

(** The [str] branch of [listify].  The pieces of the split are marshalled
    by the recursive call, as in the source; they are shorter than [s].
    The empty string has no space and is a token by the same test
    ([listify_str_body] below gives the body in one piece). *)
Equations? listify_str (s : string) : kqml by wf (String.length s) lt :=
  listify_str EmptyString := KQMLToken EmptyString;
  listify_str (String c s') :=
    if has_space (String c s') then
      if wrapped (String c s') then
        KQMLList (map_in (split (str_inner (String c s')))
                         (fun t Hin => listify_str t))
      else KQMLString (String c s')
    else KQMLToken (String c s').
Proof.
  assert (∀ u word, In t (split_from word u) →
            (String.length t ≤ String.length word + String.length u)%nat)
    as Hsplit.
  { clear. intros u. induction u as [|a u IH]; intros word; simpl.
    - destruct (decide (word = "")); simpl; [tauto|].
      intros [<-|[]]. lia.
    - destruct (isspace a).
      + destruct (decide (word = "")) as [->|]; simpl.
        * intros H. apply IH in H. simpl in H. lia.
        * intros [<-|H]; [lia|]. apply IH in H. simpl in H. lia.
      + intros H. apply IH in H.
        assert (String.length (word +:+ String a "")
                = S (String.length word)) as Hlen.
        { clear. induction word; simpl; [done|]. by f_equal. }
        rewrite Hlen in H. lia. }
  assert (∀ u, (String.length (str_init u) ≤ String.length u)%nat) as Hinit.
  { clear. intros u. induction u as [|a u IH]; simpl; [lia|].
    destruct u; simpl in *; lia. }
  apply Hsplit in Hin. simpl in Hin.
  pose proof (Hinit s'). simpl. lia.
Qed.

(** [listify(possible_list)].  The checks are in the source's order: list,
    tuple (of length two, then any other), str, dict, bool, anything else.
    The items of a dict are two-element tuples, so each is marshalled by
    the dotted-pair rule. *)
Fixpoint listify (possible_list : pyval) : kqml :=
  match possible_list with
  | PList items => KQMLList (map listify items)
  | PTuple [x; y] => KQMLList [listify x; KQMLToken "."; listify y]
  | PTuple items => KQMLList (map listify items)
  | PStr s => listify_str s
  | PDict items =>
      KQMLList (map (fun kv => KQMLList [listify kv.1; KQMLToken ".";
                                          listify kv.2]) items)
  | PBool b => if b then KQMLToken "t" else KQMLToken "nil"
  | PObj o => KQMLToken (obj_str o)
  end.

(** ** The query reply builder [response_to_query] *)

(** [str(each[0])].  In pykqml each class indexes its [data]: the first
    character of a token or string, the first element of a list, whose text
    [str] then gives; IndexError when there is none. *)
Definition first_item_str (each : kqml) : result string :=
  match each with
  | KQMLList (x :: _) => Ok (kqml_str x)
  | KQMLToken (String c _) | KQMLString (String c _) => Ok (String c "")
  | _ => Raise IndexError
  end.

(** [str(each[0]) == '?'] *)
Definition is_variable (each : kqml) : result bool :=
  s ← first_item_str each; mret (bool_decide (s = "?")).

(** [response_type is None or response_type == ':pattern'] *)
Definition pattern_mode (response_type : option string) : bool :=
  match response_type with
  | None => true
  | Some s => bool_decide (s = ":pattern")
  end.

(** [results if isinstance(results, list) else [results]] *)
Definition as_results_list (results : pyval) : list pyval :=
  match results with
  | PList l => l
  | _ => [results]
  end.

(** [content.head()] on the elements of the query. *)
Definition content_head (content : list kqml) : result string :=
  match content with
  | [] => Raise IndexError
  | h :: _ => Ok (kqml_str h)
  end.

(** [results_list[result_index]] *)
Definition getitem (results_list : list pyval) (result_index : nat)
  : result pyval :=
  match results_list !! result_index with
  | Some r => Ok r
  | None => Raise IndexError
  end.

(** One pass through the body of the [for] loop: [i] and [each] come from
    [enumerate], the state is [reply_content]'s elements and
    [result_index]. *)
Definition loop_body (response_type : bool) (results_list : list pyval)
    (arg_len : nat) (i : nat) (each : kqml) (st : list kqml * nat)
  : result (list kqml * nat) :=
  let '(reply_content, result_index) := st in
  is_var ← is_variable each;
  if is_var : bool then
    pattern ←
      (if Nat.eqb i arg_len
          && (Z.of_nat result_index <? Z.of_nat (length results_list) - 1)
       then Ok (PList (drop result_index results_list))
       else getitem results_list result_index);
    let reply_with :=
      if response_type then pattern
      else PTuple [PObj (OKqml each); pattern] in
    Ok (reply_content ++ [listify reply_with], S result_index)
  else if response_type then Ok (reply_content ++ [each], result_index)
  else Ok (reply_content, result_index).

(** [for i, each in enumerate(content.data[1:])], from index [i] on. *)
Fixpoint loop (response_type : bool) (results_list : list pyval)
    (arg_len : nat) (i : nat) (args : list kqml) (st : list kqml * nat)
  : result (list kqml * nat) :=
  match args with
  | [] => Ok st
  | each :: rest =>
      st' ← loop_body response_type results_list arg_len i each st;
      loop response_type results_list arg_len (S i) rest st'
  end.

(** The [reply_content] that [response_to_query] builds. *)
Definition response_to_query_content (response_type : option string)
    (content : list kqml) (results : pyval) : result kqml :=
  let response_type := pattern_mode response_type in
  head ← content_head content;
  let reply_content := [KQMLToken head] in
  let results_list := as_results_list results in
  let result_index := 0%nat in
  let args := tail content in
  let arg_len := length args in
  st ← loop response_type results_list arg_len 0 args
         (reply_content, result_index);
  mret (KQMLList st.1).

(** [reply_msg]: the text of the [tell] around [reply_content]. *)
Definition reply_msg (name : string) (reply_content : kqml) : string :=
  "(tell :sender " +:+ name +:+ " :content "
  +:+ kqml_str reply_content +:+ ")".

(** [response_to_query].  The text is parsed by [performative] and the
    parsed message handed to [self.reply(msg, ...)]; the parser of pykqml
    and the inherited [reply] are the function's collaborators and are
    parameters here. *)
Definition response_to_query {P : Type}
    (performative : string → result P) (reply : P → result unit)
    (name : string) (response_type : option string)
    (content : list kqml) (results : pyval) : result unit :=
  reply_content ← response_to_query_content response_type content results;
  parsed ← performative (reply_msg name reply_content);
  reply parsed.

(** *** The loop read argument by argument *)

(** A dotted pair, rendered as the three-element list. *)
Definition DottedPair (car cdr : kqml) : kqml :=
  KQMLList [car; KQMLToken "."; cdr].

(** The argument as it stands in a binding: a token with its text. *)
Definition argument_term (each : kqml) : kqml := KQMLToken (kqml_str each).

(** The fields after the predicate, argument by argument: a variable
    consumes the next result and becomes the result (Pattern) or the pair
    of the argument and the result (Bind); any other argument is copied
    (Pattern) or dropped (Bind).  [None] when a variable finds no result
    left, or an argument has no first item to test. *)
Fixpoint buildQueryReply_fields (pattern : bool) (args : list kqml)
    (results : list pyval) : option (list kqml) :=
  match args with
  | [] => Some []
  | each :: args' =>
      match is_variable each with
      | Raise _ => None
      | Ok true =>
          match results with
          | [] => None
          | r :: results' =>
              fields ← buildQueryReply_fields pattern args' results';
              Some ((if pattern then listify r
                     else DottedPair (argument_term each) (listify r))
                    :: fields)
          end
      | Ok false =>
          fields ← buildQueryReply_fields pattern args' results;
          Some (if pattern then each :: fields else fields)
      end
  end.

(** The number of variable arguments. *)
Fixpoint count_variables (args : list kqml) : nat :=
  match args with
  | [] => 0%nat
  | each :: rest =>
      match is_variable each with
      | Ok true => S (count_variables rest)
      | _ => count_variables rest
      end
  end.

(** *** The reply as the specification words it

    Of the definitions above, only the printer [kqml_str] and the
    marshaller [listify] are used below. *)

Inductive response_mode : Type :=
  | Pattern
  | Bind.

(** The mode a response type asks for: Pattern when it is unspecified or
    [:pattern], Bind otherwise. *)
Inductive requests : option string → response_mode → Prop :=
  | requests_default : requests None Pattern
  | requests_pattern : requests (Some ":pattern") Pattern
  | requests_bind s : s ≠ ":pattern" → requests (Some s) Bind.

(** A variable term: the text of its first item is the sigil.  For a
    token that is its first character, for a quoted string the first
    character of its content, for a list its first element, which then
    has to be the token [?].  [None] for a term with no first item. *)
Definition variable_term (arg : kqml) : option bool :=
  match arg with
  | KQMLToken (String c _) | KQMLString (String c _) =>
      Some (Ascii.eqb c "?")
  | KQMLList (KQMLToken sigil :: _) => Some (String.eqb sigil "?")
  | KQMLList (_ :: _) => Some false
  | _ => None
  end.

Definition has_first_item (arg : kqml) : Prop := is_Some (variable_term arg).

(** The number of variable terms among the arguments. *)
Fixpoint variable_count (args : list kqml) : nat :=
  match args with
  | [] => 0%nat
  | arg :: rest =>
      match variable_term arg with
      | Some true => S (variable_count rest)
      | _ => variable_count rest
      end
  end.

(** The flattened results: a list as it is, any other value as a sequence
    of one. *)
Definition results_sequence (results : pyval) : list pyval :=
  match results with
  | PList sequence => sequence
  | PTuple _ | PStr _ | PDict _ | PBool _ | PObj _ => [results]
  end.

(** The fields of the reply after the predicate.  A variable term consumes
    one result: Pattern puts the marshalled result in its place, Bind
    emits the dotted pair of the argument, as a token of its text, and
    the marshalled result.  Any
    other argument is copied through by Pattern and dropped by Bind.
    [None] when a variable finds no result or a term has no first item. *)
Fixpoint reply_fields (mode : response_mode) (args : list kqml)
    (results : list pyval) : option (list kqml) :=
  match args with
  | [] => Some []
  | arg :: args' =>
      match variable_term arg, results with
      | None, _ => None
      | Some true, [] => None
      | Some true, r :: results' =>
          fields ← reply_fields mode args' results';
          Some (match mode with
                | Pattern => listify r
                | Bind => KQMLList [KQMLToken (kqml_str arg);
                                    KQMLToken "."; listify r]
                end :: fields)
      | Some false, _ =>
          fields ← reply_fields mode args' results;
          Some (match mode with
                | Pattern => arg :: fields
                | Bind => fields
                end)
      end
  end.

(** ** The port file reader [get_port] *)

(** What [json.loads] returns: [None], booleans, integers, strings, lists
    and dicts with string keys (floats are left out). *)
Inductive jvalue : Type :=
  | JNone
  | JBool (b : bool)
  | JInt (n : Z)
  | JStr (s : string)
  | JList (items : list jvalue)
  | JDict (d : gmap string jvalue).

(** A file system entry.  Of a regular file the reader only uses what
    [load_dict(portnum_file.readline())] makes of the first line: a JSON
    value, or no value when the line does not decode. *)
Inductive fs_entry : Type :=
  | Directory
  | File (first_line : option jvalue).

(** A path is the list of its components. *)
Abbreviation path := (list string).

Abbreviation filesystem := (gmap (list string) fs_entry).

(** [needle in hay] for two strings. *)
Fixpoint is_substring (needle hay : string) : bool :=
  String.prefix needle hay ||
  match hay with
  | EmptyString => false
  | String _ hay' => is_substring needle hay'
  end.

(** [key in port_dict]: key membership in a dict, element membership in a
    list, substring in a string, TypeError otherwise. *)
Definition contains (key : string) (port_dict : jvalue) : result bool :=
  match port_dict with
  | JDict d => Ok (bool_decide (is_Some (d !! key)))
  | JList items =>
      Ok (existsb (λ x, match x with
                        | JStr s => bool_decide (s = key)
                        | _ => false
                        end) items)
  | JStr s => Ok (is_substring key s)
  | JNone | JBool _ | JInt _ => Raise TypeError
  end.

(** [port_dict[key]] for a string key. *)
Definition subscript (port_dict : jvalue) (key : string) : result jvalue :=
  match port_dict with
  | JDict d =>
      match d !! key with
      | Some v => Ok v
      | None => Raise KeyError
      end
  | _ => Raise TypeError
  end.

(** [process_pid == v] for an integer [process_pid]; [True] and [False]
    compare as 1 and 0. *)
Definition int_eq (process_pid : Z) (v : jvalue) : bool :=
  match v with
  | JInt n => bool_decide (process_pid = n)
  | JBool b => bool_decide (process_pid = if b then 1 else 0)
  | _ => false
  end.

(** [assert cond] *)
Definition assert (cond : bool) : result unit :=
  if cond then Ok () else Raise AssertionError.

(** [load_dict(portnum_file.readline())] after [portnum_path.open()]. *)
Definition load_first_line (e : fs_entry) : result jvalue :=
  match e with
  | Directory => Raise OSError
  | File None => Raise JSONDecodeError
  | File (Some port_dict) => Ok port_dict
  end.

Definition get_port (fs : filesystem) (portnum_path : path)
    (process_pid : Z) (verify : bool) : result jvalue :=
  match fs !! portnum_path with
  | Some entry =>
      port_dict ← load_first_line entry;
      has_port ← contains "port" port_dict;
      if negb has_port then Ok JNone
      else
        _ ← (if verify then
                has_pid ← contains "pid" port_dict;
                _ ← assert has_pid;
                pid ← subscript port_dict "pid";
                assert (int_eq process_pid pid)
              else Ok ());
        subscript port_dict "port"
  | None => Ok JNone
  end.

(** A port file as Companions writes it, and its place on disk. *)
Definition sample_record : jvalue :=
  JDict {[ "port" := JInt 9100; "pid" := JInt 7 ]}.

Definition sample_path : path := ["opt"; "companions"; "portnum.dat"].

(** ** The discovery routine [check_for_companions] *)

Definition PORTNUM : string := "portnum.dat".

Definition COMPANIONS_EXES : list string :=
  ["CompanionsMicroServer64.exe"; "CompanionsServer64.exe"].

(** [p.info] for a process yielded by [process_iter]. *)
Record process : Type := {
  pid : Z;
  name : string;
  exe : path;
}.

(** What the routine reads from the machine: the processes in the order
    [process_iter] yields them, the mount points of [disk_partitions], the
    home directory and the file system. *)
Record machine : Type := {
  running : list process;
  mountpoints : list path;
  home : path;
  files : filesystem;
}.

(** [next((p.info for p in processes if name in p.info['name']), None)].
    [processes] is the one iterator made by [process_iter]: the search
    consumes it up to and including the match, and the second component is
    what is left in it for the next search. *)
Fixpoint next_named (key : string) (processes : list process)
  : option process * list process :=
  match processes with
  | [] => (None, [])
  | p :: rest =>
      if is_substring key (name p) then (Some p, rest)
      else next_named key rest
  end.

(** [for name in COMPANIONS_EXES: ...; if process: companion = process;
    break], with the iterator threaded through. *)
Fixpoint find_companion (names : list string) (processes : list process)
  : option process * list process :=
  match names with
  | [] => (None, processes)
  | key :: names' =>
      match next_named key processes with
      | (Some p, rest) => (Some p, rest)
      | (None, rest) => find_companion names' rest
      end
  end.

(** [Path(p).with_name(new)]: ValueError on a path with no name. *)
Definition with_name (p : path) (new : string) : result path :=
  match reverse p with
  | [] => Raise ValueError
  | _ :: parents => Ok (reverse parents ++ [new])
  end.

(** Python truth value of what [get_port] returned. *)
Definition truthy (v : jvalue) : bool :=
  match v with
  | JNone => false
  | JBool b => b
  | JInt n => negb (bool_decide (n = 0))
  | JStr s => negb (bool_decide (s = ""))
  | JList items => negb (bool_decide (items = []))
  | JDict d => negb (bool_decide (size d = 0%nat))
  end.

(** [for root in potential_roots: qrg = root / 'qrg'; if qrg.exists(): ...
    break] *)
Fixpoint find_qrg (fs : filesystem) (potential_roots : list path)
  : option path :=
  match potential_roots with
  | [] => None
  | root :: roots =>
      let qrg := root ++ ["qrg"] in
      if bool_decide (is_Some (fs !! qrg)) then Some qrg
      else find_qrg fs roots
  end.

Definition check_for_companions (m : machine) (verify : bool)
  : result jvalue :=
  let potential_port := JNone in
  let processes := running m in
  let '(companion, processes) := find_companion COMPANIONS_EXES processes in
  potential_port ←
    match companion with
    | Some companion =>
        portnum_path ← with_name (exe companion) PORTNUM;
        get_port (files m) portnum_path (pid companion) verify
    | None => Ok potential_port
    end;
  if truthy potential_port then Ok potential_port
  else
    let potential_roots := mountpoints m ++ [home m] in
    let qrg_root := find_qrg (files m) potential_roots in
    let '(allegro, _) := next_named "allegro.exe" processes in
    match qrg_root, allegro with
    | Some qrg_root, Some allegro =>
        let portnum_path := qrg_root ++ ["companions"; "v1"; PORTNUM] in
        get_port (files m) portnum_path (pid allegro) verify
    | _, _ => Ok potential_port
    end.

(** *** Discovery as the specification words it

    The same steps with every search looking at all running processes. *)
Definition first_named (key : string) (processes : list process)
  : option process :=
  List.find (λ p, is_substring key (name p)) processes.

Fixpoint first_companion (names : list string) (processes : list process)
  : option process :=
  match names with
  | [] => None
  | key :: names' =>
      match first_named key processes with
      | Some p => Some p
      | None => first_companion names' processes
      end
  end.

Definition discover (m : machine) (verify : bool) : result jvalue :=
  step1 ←
    match first_companion COMPANIONS_EXES (running m) with
    | Some companion =>
        portnum_path ← with_name (exe companion) PORTNUM;
        get_port (files m) portnum_path (pid companion) verify
    | None => Ok JNone
    end;
  if truthy step1 then Ok step1
  else
    match find_qrg (files m) (mountpoints m ++ [home m]),
          first_named "allegro.exe" (running m) with
    | Some qrg_root, Some allegro =>
        get_port (files m) (qrg_root ++ ["companions"; "v1"; PORTNUM])
                 (pid allegro) verify
    | _, _ => Ok JNone
    end.

(** A machine where only the second executable of the list runs, with its
    port file next to it. *)
Definition server_only : machine :=
  {| running := [ {| pid := 7; name := "CompanionsServer64.exe";
                     exe := ["opt"; "companions"; "CompanionsServer64.exe"] |} ];
     mountpoints := [[]];
     home := ["home"; "user"];
     files := {[ sample_path := File (Some sample_record) ]} |}.

(** A development machine: [allegro.exe] runs and the [qrg] directory with
    its port file sits at the root of the only volume. *)
Definition allegro_only : machine :=
  {| running := [ {| pid := 7; name := "allegro.exe";
                     exe := ["acl"; "allegro.exe"] |} ];
     mountpoints := [[]];
     home := ["home"; "user"];
     files := {[ ["qrg"] := Directory;
                 ["qrg"; "companions"; "v1"; "portnum.dat"]
                   := File (Some sample_record) ]} |}.

(** A machine with both: the first executable of the list with its port
    file, and a development installation whose port file names another
    port. *)
Definition micro_and_allegro : machine :=
  {| running := [ {| pid := 3; name := "allegro.exe";
                     exe := ["acl"; "allegro.exe"] |};
                  {| pid := 7; name := "CompanionsMicroServer64.exe";
                     exe := ["opt"; "companions";
                             "CompanionsMicroServer64.exe"] |} ];
     mountpoints := [[]];
     home := ["home"; "user"];
     files := {[ sample_path := File (Some sample_record);
                 ["qrg"] := Directory;
                 ["qrg"; "companions"; "v1"; "portnum.dat"]
                   := File (Some (JDict {[ "port" := JInt 9200;
                                           "pid" := JInt 3 ]})) ]} |}.

(** ** The outbound connection: [connect], [send_generic], [send] *)

(** What happened on a socket, in order. *)
Inductive io_event : Type :=
  | EvConnect (s : nat)
  | EvWrite (s : nat) (data : string)
  | EvFlush (s : nat)
  | EvShutdown (s : nat)
  | EvClose (s : nat).

(** The two fields of the module that the send path assigns, with the
    sockets of the process: those created and not closed, those connected,
    the number created so far (the next socket's identity) and the events
    on them.  A writer is identified with the socket it wraps.  Only
    explicit [close] calls close a socket here; finalisation of sockets
    that nothing references any more is not part of the model. *)
Record sender : Type := {
  send_socket : option nat;
  out : option nat;
  open_sockets : gset nat;
  connected : gset nat;
  sockets_made : nat;
  wire : list io_event;
}.

(** How the operating system answers during one call: whether the
    connection is accepted, and whether each write, the flush and the
    shutdown go through. *)
Record network : Type := {
  connect_ok : bool;
  msg_write_ok : bool;
  newline_write_ok : bool;
  flush_ok : bool;
  shutdown_ok : bool;
}.

(** Stateful computations that may raise. *)
Definition io (A : Type) : Type := sender → result A * sender.

#[global] Instance io_ret : MRet io := λ A a c, (Ok a, c).

#[global] Instance io_bind : MBind io := λ A B k m c,
  match m c with
  | (Ok a, c') => k a c'
  | (Raise e, c') => (Raise e, c')
  end.

Definition raise_io {A : Type} (e : exn) : io A := λ c, (Raise e, c).

(** [try: body except OSError: handler]; IOError is the same class. *)
Definition try_except_OSError (body handler : io unit) : io unit := λ c,
  match body c with
  | (Raise OSError, c') => handler c'
  | r => r
  end.

Definition read {A : Type} (field : sender → A) : io A := λ c, (Ok (field c), c).

Definition log_event (e : io_event) : io unit := λ c,
  (Ok (), {| send_socket := send_socket c; out := out c;
             open_sockets := open_sockets c; connected := connected c;
             sockets_made := sockets_made c; wire := wire c ++ [e] |}).

(** [self.send_socket = v] *)
Definition set_send_socket (v : option nat) : io unit := λ c,
  (Ok (), {| send_socket := v; out := out c;
             open_sockets := open_sockets c; connected := connected c;
             sockets_made := sockets_made c; wire := wire c |}).

(** [self.out = v] *)
Definition set_out (v : option nat) : io unit := λ c,
  (Ok (), {| send_socket := send_socket c; out := v;
             open_sockets := open_sockets c; connected := connected c;
             sockets_made := sockets_made c; wire := wire c |}).

(** [socket()]: a socket no earlier call returned, open and unconnected. *)
Definition socket : io nat := λ c,
  let s := sockets_made c in
  (Ok s, {| send_socket := send_socket c; out := out c;
            open_sockets := {[s]} ∪ open_sockets c; connected := connected c;
            sockets_made := S s; wire := wire c |}).

(** [s.connect((host, port))] *)
Definition sock_connect (net : network) (s : nat) : io unit := λ c,
  if connect_ok net then
    (Ok (), {| send_socket := send_socket c; out := out c;
               open_sockets := open_sockets c;
               connected := {[s]} ∪ connected c;
               sockets_made := sockets_made c;
               wire := wire c ++ [EvConnect s] |})
  else (Raise OSError, c).

(** [s.shutdown(SHUT_RDWR)]: OSError on a socket that is not connected. *)
Definition sock_shutdown (net : network) (s : nat) : io unit := λ c,
  if shutdown_ok net && bool_decide (s ∈ connected c) then
    log_event (EvShutdown s) c
  else (Raise OSError, c).

(** [s.close()] *)
Definition sock_close (s : nat) : io unit := λ c,
  (Ok (), {| send_socket := send_socket c; out := out c;
             open_sockets := open_sockets c ∖ {[s]};
             connected := connected c ∖ {[s]};
             sockets_made := sockets_made c;
             wire := wire c ++ [EvClose s] |}).

(** A write or flush on the writer [w] that goes through or raises. *)
Definition writer_op (ok : bool) (e : io_event) : io unit :=
  if ok then log_event e else raise_io OSError.

Definition assert_io (cond : bool) : io unit := λ c, (assert cond, c).

Definition connect (net : network) : io unit :=
  try_except_OSError
    (s ← socket;
     set_send_socket (Some s);;
     sock_connect net s;;
     set_out (Some s))
    (mret ());;
  o ← read out;
  assert_io (bool_decide (is_Some o)).

Definition send_generic (net : network) (msg : string) (out : option nat)
  : io unit :=
  match out with
  | None => raise_io AttributeError
  | Some w =>
      try_except_OSError
        (writer_op (msg_write_ok net) (EvWrite w msg))
        (mret ());;
      writer_op (newline_write_ok net) (EvWrite w (String (ascii_of_nat 10) ""));;
      writer_op (flush_ok net) (EvFlush w)
  end.

Definition send (net : network) (msg : string) : io unit :=
  connect net;;
  o ← read out;
  send_generic net msg o;;
  s ← read send_socket;
  match s with
  | None => raise_io AttributeError
  | Some s =>
      sock_shutdown net s;;
      sock_close s;;
      set_send_socket None;;
      set_out None
  end.

(** The sender as [__init__] leaves it. *)
Definition sender_init : sender :=
  {| send_socket := None; out := None; open_sockets := ∅; connected := ∅;
     sockets_made := 0; wire := [] |}.

(** The call left no handle in the two fields, and the socket it created
    (the one numbered [sockets_made before]) is not open. *)
Definition released (before after : sender) : Prop :=
  send_socket after = None ∧ out after = None ∧
  sockets_made before ∉ open_sockets after.

(** Run the state-passing computation in the goal. *)
Ltac run_io :=
  repeat (unfold mbind, io_bind, mret, io_ret, read, log_event,
            set_send_socket, set_out, socket, sock_close, raise_io,
            assert_io; cbn).

(** The events of one completed [send] on socket [s]. *)
Definition send_events (net : network) (msg : string) (s : nat)
  : list io_event :=
  [EvConnect s]
  ++ (if msg_write_ok net then [EvWrite s msg] else [])
  ++ [EvWrite s (String (ascii_of_nat 10) ""); EvFlush s;
      EvShutdown s; EvClose s].

(** A network on which everything goes through but the message write. *)
Definition msg_write_fails : network :=
  {| connect_ok := true; msg_write_ok := false; newline_write_ok := true;
     flush_ok := true; shutdown_ok := true |}.

(** A network on which the flush fails. *)
Definition flush_fails : network :=
  {| connect_ok := true; msg_write_ok := true; newline_write_ok := true;
     flush_ok := false; shutdown_ok := true |}.

(** A network that refuses the connection. *)
Definition refused : network :=
  {| connect_ok := false; msg_write_ok := true; newline_write_ok := true;
     flush_ok := true; shutdown_ok := true |}.

(** ** The listener and the [state] field: [listen], [receive_eof], [exit] *)

(** Where the listener thread stands in [listen]: about to test
    [self.ready], blocked in [accept], between submitting the dispatcher
    and the assignment to [self.state], or past the loop. *)
Inductive listener_pc : Type :=
  | AtLoopTest
  | InAccept
  | Submitted
  | Returned.

(** The fields [listen], [receive_eof] and [exit] touch.  A dispatcher is
    identified by the number of the connection it was made for. *)
Record dispatch : Type := {
  ready : bool;
  dispatcher : option nat;
  state : string;
  listener_at : listener_pc;
  accepted : nat;
}.

(** The atomic steps of the three methods, taken by the listener thread
    ([LoopTest], [Accepted], [MarkDispatching]), by a worker
    ([ReceiveEof]) and by whoever calls [exit] ([Exit]). *)
Inductive event : Type :=
  | LoopTest
  | Accepted
  | MarkDispatching
  | ReceiveEof
  | Exit.

(** [__init__]: [self.dispatcher = None], [self.ready = True],
    [self.state = 'idle'], listener started. *)
Definition dispatch_init : dispatch :=
  {| ready := true; dispatcher := None; state := "idle";
     listener_at := AtLoopTest; accepted := 0 |}.

(** One step; [None] when the step cannot be taken in this state. *)
Definition step (e : event) (d : dispatch) : option dispatch :=
  match e with
  | LoopTest =>
      (* while self.ready: *)
      match listener_at d with
      | AtLoopTest =>
          Some {| ready := ready d; dispatcher := dispatcher d;
                  state := state d;
                  listener_at := if ready d then InAccept else Returned;
                  accepted := accepted d |}
      | _ => None
      end
  | Accepted =>
      (* accept() returned; self.dispatcher = KQMLDispatcher(...);
         executor.submit(self.dispatcher.start) *)
      match listener_at d with
      | InAccept =>
          Some {| ready := ready d; dispatcher := Some (accepted d);
                  state := state d; listener_at := Submitted;
                  accepted := S (accepted d) |}
      | _ => None
      end
  | MarkDispatching =>
      (* self.state = 'dispatching' *)
      match listener_at d with
      | Submitted =>
          Some {| ready := ready d; dispatcher := dispatcher d;
                  state := "dispatching"; listener_at := AtLoopTest;
                  accepted := accepted d |}
      | _ => None
      end
  | ReceiveEof =>
      (* self.dispatcher.shutdown() raises on None, before the
         assignments; the two assignments are taken as one step *)
      match dispatcher d with
      | Some _ =>
          Some {| ready := ready d; dispatcher := None; state := "idle";
                  listener_at := listener_at d; accepted := accepted d |}
      | None => Some d
      end
  | Exit =>
      (* self.ready = False; the dispatcher is shut down, not cleared *)
      Some {| ready := false; dispatcher := dispatcher d; state := state d;
              listener_at := listener_at d; accepted := accepted d |}
  end.

(** The states the agent can be in after any interleaving of steps. *)
Inductive reachable : dispatch → Prop :=
  | reachable_init : reachable dispatch_init
  | reachable_step e d d' :
      reachable d → step e d = Some d' → reachable d'.

(** Run a sequence of steps, skipping those that cannot be taken. *)
Fixpoint run (es : list event) (d : dispatch) : dispatch :=
  match es with
  | [] => d
  | e :: es' => run es' (default d (step e d))
  end.

(** ** Lisp to Python helpers: [convert_to_boolean] *)

(** [convert_to_boolean(to_be_bool)]: only the token [nil] and the empty
    KQML list are false. *)
Definition convert_to_boolean (to_be_bool : pyval) : bool :=
  match to_be_bool with
  | PObj (OKqml (KQMLToken data)) => negb (bool_decide (data = "nil"))
  | PObj (OKqml (KQMLList data)) => negb (bool_decide (length data = 0%nat))
  | _ => true
  end.

(** A word as a token prints it: not empty and free of whitespace. *)
Definition plain_word (w : string) : Prop :=
  w ≠ "" ∧ has_whitespace w = false.

(** ** Argument checking: [valid_port] *)

(** The two exceptions that leave [valid_port]. *)
Inductive port_error : Type :=
  | ArgumentTypeError
  | UnboundLocalError.

(** [valid_port(string)].  The builtin [int] is a parameter: [None] is
    its ValueError.  When it raises, the handler formats [port_num], which
    was never assigned: the exception that leaves the function is
    UnboundLocalError.  The range test is [1024 < port_num < 65535]. *)
Definition valid_port (int : string → option Z) (string : string)
  : port_error + Z :=
  match int string with
  | None => inl UnboundLocalError
  | Some port_num =>
      let in_range := (1024 <? port_num) && (port_num <? 65535) in
      if negb in_range then inl ArgumentTypeError else inr port_num
  end.

(** ** The constructor helper [init_check_companions] *)

Definition LOCALHOST : string := "localhost".

Definition LOCALHOST_DEFS : list string := [LOCALHOST; "127.0.0.1"; "::1"].

(** The keyword arguments handed to [cls]; an absent key leaves the
    default of [__init__] in force. *)
Record kwargs : Type := {
  kw_host : option string;
  kw_port : option jvalue;
  kw_listener_port : option Z;
  kw_debug : option bool;
}.

(** Truth values of the optional arguments. *)
Definition host_given (host : option string) : bool :=
  match host with
  | Some h => negb (bool_decide (h = ""))
  | None => false
  end.

Definition int_given (port : option Z) : bool :=
  match port with
  | Some n => negb (bool_decide (n = 0))
  | None => false
  end.

Definition debug_given (debug : option bool) : bool :=
  match debug with
  | Some b => b
  | None => false
  end.

(** [True if not host else host in LOCALHOST_DEFS] *)
Definition host_is_local (host : option string) : bool :=
  match host with
  | Some h => if host_given host then bool_decide (h ∈ LOCALHOST_DEFS)
              else true
  | None => true
  end.

(** The keyword arguments [init_check_companions] collects (lines 200 to
    214). *)
Definition init_check_companions_kwargs (m : machine) (host : option string)
    (port listener_port : option Z) (debug : option bool)
    (verify_port : bool) : result kwargs :=
  let kw_host := if host_given host then host else None in
  let kw_port := if int_given port then JInt <$> port else None in
  let kw_listener_port :=
    if int_given listener_port then listener_port else None in
  let kw_debug := if debug_given debug then debug else None in
  kw_port ←
    (if negb (int_given port) && host_is_local host then
       port ← check_for_companions m verify_port;
       if truthy port then Ok (Some port) else Ok kw_port
     else Ok kw_port);
  mret {| kw_host := kw_host; kw_port := kw_port;
          kw_listener_port := kw_listener_port; kw_debug := kw_debug |}.

(** [init_check_companions]: the keywords are collected and [cls] is
    called on them (line 215).  The constructor [cls], which may raise, is
    a parameter. *)
Definition init_check_companions {A : Type} (cls : kwargs → result A)
    (m : machine) (host : option string) (port listener_port : option Z)
    (debug : option bool) (verify_port : bool) : result A :=
  kw ← init_check_companions_kwargs m host port listener_port debug
         verify_port;
  cls kw.

(** The port [__init__] ends up with: the keyword, or the default 9000. *)
Definition port_used (kw : kwargs) : jvalue := default (JInt 9000) (kw_port kw).

(** ** The launching constructor of [ControlledCompanionsKQMLModule] *)

(** The launched executable, as seen from the port file: its pid, and
    what it does to the port file between one poll and the next (nothing,
    or write it). *)
Record child : Type := {
  child_pid : Z;
  child_writes : list (option fs_entry);
}.

(** [portnum_path.unlink()] when the path exists; a directory cannot be
    unlinked. *)
Definition unlink_if_exists (fs : filesystem) (p : path)
  : result filesystem :=
  match fs !! p with
  | None => Ok fs
  | Some Directory => Raise OSError
  | Some (File _) => Ok (delete p fs)
  end.

(** [while not portnum_path.exists(): sleep(1)], the child acting during
    each sleep.  [None] when the file has not appeared by the end of the
    child's recorded activity: the loop is still running. *)
Fixpoint poll (fs : filesystem) (p : path) (writes : list (option fs_entry))
  : option filesystem :=
  if bool_decide (is_Some (fs !! p)) then Some fs
  else
    match writes with
    | [] => None
    | w :: writes' =>
        poll (match w with Some e => <[p := e]> fs | None => fs end)
             p writes'
    end.

(** [Popen(str(exe_location))]: the executable has to be a file. *)
Definition popen (fs : filesystem) (exe_location : path) : result unit :=
  match fs !! exe_location with
  | Some (File _) => Ok ()
  | _ => Raise OSError
  end.

(** [ControlledCompanionsKQMLModule.__init__] up to the port it passes on:
    remove an old port file, launch, wait for the port file, read it. *)
Definition launch (fs : filesystem) (exe_path : path) (exe_name : string)
    (c : child) (verify_port : bool) : option (result jvalue) :=
  let portnum_path := exe_path ++ [PORTNUM] in
  let exe_location := exe_path ++ [exe_name] in
  match unlink_if_exists fs portnum_path with
  | Raise e => Some (Raise e)
  | Ok fs =>
      match popen fs exe_location with
      | Raise e => Some (Raise e)
      | Ok _ =>
          fs ← poll fs portnum_path (child_writes c);
          Some (get_port fs portnum_path (child_pid c) verify_port)
      end
  end.

(** ** Well-formed senders *)

(** Every open socket was made by [socket], so its number is below the
    count of sockets made, and only open sockets are connected. *)
Definition sender_wf (c : sender) : Prop :=
  (∀ s, s ∈ open_sockets c → (s < sockets_made c)%nat) ∧
  connected c ⊆ open_sockets c.

(** The sender after a [send] whose flush failed: the socket of that call
    is still open and [out] still writes to it. *)
Definition after_failed_flush : sender :=
  (send flush_fails "(first)" sender_init).2.

(** ** The listener: connections still to be accepted *)

(** The connection the listener is committed to accept: it is blocked in
    [accept] and will not test [ready] before a connection has come. *)
Definition pending_accept (d : dispatch) : nat :=
  match listener_at d with
  | InAccept => 1
  | _ => 0
  end.

(** * Properties *)

(** ** The marshaller *)

Lemma map_in_map {A B : Type} (f : A → B) (l : list A) :
  map_in l (λ x _, f x) = map f l.
Proof. induction l as [|x l IH]; simpl; [done|]. by rewrite IH. Qed.

Lemma has_space_whitespace s : has_space s = true → has_whitespace s = true.
Proof.
  induction s as [|c s IH]; simpl; [done|].
  intros [Hc|Hs]%orb_true_iff.
  - apply Ascii.eqb_eq in Hc as ->. done.
  - rewrite (IH Hs). apply orb_true_r.
Qed.

(** The body of the [str] branch, with the recursive call on each piece. *)
Lemma listify_str_body s :
  listify_str s =
    if has_space s then
      if wrapped s then KQMLList (map listify_str (split (str_inner s)))
      else KQMLString s
    else KQMLToken s.
Proof.
  destruct s as [|c s]; simp listify_str; [done|].
  by rewrite map_in_map.
Qed.

Lemma has_whitespace_app w c :
  has_whitespace w = false → isspace c = false →
  has_whitespace (w +:+ String c "") = false.
Proof.
  intros Hw Hc. induction w as [|a w IH]; simpl in *.
  - by rewrite Hc.
  - apply orb_false_iff in Hw as [-> Hw]. simpl. by apply IH.
Qed.

Lemma split_from_no_whitespace word s t :
  has_whitespace word = false → In t (split_from word s) →
  has_whitespace t = false.
Proof.
  revert word. induction s as [|c s IH]; intros word Hw; simpl.
  - destruct (decide (word = "")); simpl; [tauto|]. by intros [<-|[]].
  - destruct (isspace c) eqn:Hc.
    + destruct (decide (word = "")); simpl.
      * by apply IH.
      * intros [<-|H]; [done|]. by apply (IH "").
    + apply IH. by apply has_whitespace_app.
Qed.

(** Every piece of [s.split()] is free of whitespace, so its own
    marshalling is a token. *)
Lemma listify_str_piece u t : In t (split u) → listify_str t = KQMLToken t.
Proof.
  intros Hin. apply (split_from_no_whitespace "") in Hin; [|done].
  rewrite listify_str_body.
  destruct (has_space t) eqn:Hsp; [|done].
  apply has_space_whitespace in Hsp. congruence.
Qed.

Lemma listify_pieces u :
  map listify_str (split u) = map KQMLToken (split u).
Proof.
  apply map_ext_in. intros t Hin. by apply (listify_str_piece u).
Qed.

Lemma listify_tuple items :
  length items ≠ 2%nat →
  listify (PTuple items) = KQMLList (map listify items).
Proof. destruct items as [|x [|y [|z items]]]; simpl; done. Qed.

Lemma listify_no_space s :
  has_space s = false → listify (PStr s) = KQMLToken s.
Proof. intros Hs. simpl. rewrite listify_str_body. by rewrite Hs. Qed.

Lemma listify_wrapped s :
  has_space s = true → wrapped s = true →
  listify (PStr s)
    = KQMLList (map (λ t, listify (PStr t)) (split (str_inner s)))
  ∧ listify (PStr s) = KQMLList (map KQMLToken (split (str_inner s))).
Proof.
  intros Hs Hw. simpl. rewrite listify_str_body, Hs, Hw.
  split; [done|]. by rewrite listify_pieces.
Qed.

Lemma listify_quoted s :
  has_space s = true → wrapped s = false →
  listify (PStr s) = KQMLString s.
Proof. intros Hs Hw. simpl. rewrite listify_str_body. by rewrite Hs, Hw. Qed.

(** C3, as amended: [listify] is a total function that takes the first
    rule that applies: a list becomes the list of its marshalled elements;
    a tuple of exactly two elements becomes the dotted pair
    [[car; Token "."; cdr]] and a tuple of any other length goes by the
    list rule; a string with no space character (so also every string
    with no whitespace) becomes a token, a string with a space that starts
    with an opening and ends with a closing parenthesis is split on
    whitespace into the list of its marshalled pieces (all tokens), and
    any other string with a space becomes a quoted string; a boolean
    becomes the token [t] or [nil]; a dict becomes the list of its items'
    dotted pairs; any other object becomes the token of its string form. *)
Theorem listify_rules :
  (∀ items, listify (PList items) = KQMLList (map listify items)) ∧
  (∀ x y, listify (PTuple [x; y]) = DottedPair (listify x) (listify y)) ∧
  (∀ items, length items ≠ 2%nat →
     listify (PTuple items) = KQMLList (map listify items)) ∧
  (∀ s, has_space s = false → listify (PStr s) = KQMLToken s) ∧
  (∀ s, has_whitespace s = false → listify (PStr s) = KQMLToken s) ∧
  (∀ s, has_space s = true → wrapped s = true →
     listify (PStr s)
       = KQMLList (map (λ t, listify (PStr t)) (split (str_inner s)))
     ∧ listify (PStr s) = KQMLList (map KQMLToken (split (str_inner s)))) ∧
  (∀ s, has_space s = true → wrapped s = false →
     listify (PStr s) = KQMLString s) ∧
  (∀ b, listify (PBool b) = KQMLToken (if b then "t" else "nil")) ∧
  (∀ items, listify (PDict items)
     = KQMLList (map (λ kv, listify (PTuple [kv.1; kv.2])) items)) ∧
  (∀ o, listify (PObj o) = KQMLToken (obj_str o)).
Proof.
  split_and!.
  - done.
  - done.
  - apply listify_tuple.
  - apply listify_no_space.
  - intros s Hs. apply listify_no_space.
    destruct (has_space s) eqn:Hsp; [|done].
    apply has_space_whitespace in Hsp. congruence.
  - apply listify_wrapped.
  - apply listify_quoted.
  - by intros [].
  - done.
  - done.
Qed.

(** The rules at work on a parenthesised string with spaces. *)
Lemma listify_rules_witness :
  listify (PStr "(isa Fido  Dog)")
    = KQMLList [KQMLToken "isa"; KQMLToken "Fido"; KQMLToken "Dog"].
Proof.
  destruct listify_rules as (_ & _ & _ & _ & _ & Hsplit & _).
  destruct (Hsplit "(isa Fido  Dog)") as [_ ->]; reflexivity.
Defined.

(** C3, counterexample: the string rules of the claim test for whitespace,
    [listify] tests for a space.  The parenthesised string "(a<TAB>b)"
    contains whitespace, yet it is not split: it becomes one token. *)
Lemma listify_whitespace_counterexample :
  ¬ (∀ s, has_whitespace s = true → wrapped s = true →
       listify (PStr s)
         = KQMLList (map (λ t, listify (PStr t)) (split (str_inner s)))).
Proof.
  intros H. specialize (H ("(a" +:+ tab +:+ "b)") eq_refl eq_refl).
  vm_compute in H. discriminate H.
Qed.

(** ** The query reply builder *)

Lemma is_variable_raise each e : is_variable each = Raise e → e = IndexError.
Proof.
  unfold is_variable, first_item_str.
  destruct each as [[|x l]|[|c s]|[|c s]]; cbn;
    unfold mret, result_ret; congruence.
Qed.

Lemma drop_nil_lookup {A : Type} (l : list A) (n : nat) :
  drop n l = [] → l !! n = None.
Proof.
  intros H. apply lookup_ge_None_2.
  apply (f_equal length) in H. rewrite length_drop in H. simpl in H. lia.
Qed.

Lemma drop_cons_lookup {A : Type} (l : list A) (n : nat) x rest :
  drop n l = x :: rest → l !! n = Some x ∧ drop (S n) l = rest.
Proof.
  intros H.
  assert (l !! n = Some x) as Hx.
  { rewrite <- (Nat.add_0_r n), <- lookup_drop, H. done. }
  split; [done|].
  rewrite (drop_S _ _ _ Hx) in H. congruence.
Qed.

(** The loop, started anywhere before the end of the arguments, does what
    the argument-by-argument reading says on the results not yet
    consumed; the test [i == arg_len] never holds inside it. *)
Lemma loop_fields pat results_list arg_len args :
  ∀ i rc idx, (i + length args = arg_len)%nat →
    loop pat results_list arg_len i args (rc, idx) =
      match buildQueryReply_fields pat args (drop idx results_list) with
      | Some fields => Ok (rc ++ fields, (idx + count_variables args)%nat)
      | None => Raise IndexError
      end.
Proof.
  induction args as [|each rest IH]; intros i rc idx Hlen; simpl.
  - by rewrite app_nil_r, Nat.add_0_r.
  - simpl in Hlen.
    assert (Nat.eqb i arg_len = false) as Hi by (apply Nat.eqb_neq; lia).
    destruct (is_variable each) as [[|]|e] eqn:Hvar; simpl.
    + rewrite Hi. simpl. unfold getitem.
      destruct (drop idx results_list) as [|r rs] eqn:Hdrop.
      * by rewrite (drop_nil_lookup _ _ Hdrop).
      * apply drop_cons_lookup in Hdrop as [-> Hdrop]. simpl.
        rewrite (IH (S i)) by lia. rewrite Hdrop.
        destruct (buildQueryReply_fields pat rest rs) as [fields|]; simpl;
          [|done].
        rewrite <- app_assoc, Nat.add_succ_r. simpl.
        by destruct pat.
    + destruct pat; simpl; rewrite (IH (S i)) by lia;
        destruct (buildQueryReply_fields _ rest _) as [fields|]; simpl;
        try done.
      by rewrite <- app_assoc.
    + by rewrite (is_variable_raise _ _ Hvar).
Qed.

(** The reply content is the predicate's token followed by the fields of
    the argument-by-argument reading; every failure is an IndexError. *)
Lemma content_by_fields response_type h args results :
  response_to_query_content response_type (h :: args) results =
    match buildQueryReply_fields (pattern_mode response_type) args
            (as_results_list results) with
    | Some fields => Ok (KQMLList (KQMLToken (kqml_str h) :: fields))
    | None => Raise IndexError
    end.
Proof.
  unfold response_to_query_content. simpl.
  rewrite (loop_fields _ _ (length args)) by done.
  rewrite drop_0.
  by destruct (buildQueryReply_fields _ _ _).
Qed.

Lemma pattern_mode_true response_type :
  pattern_mode response_type = true ↔
  response_type = None ∨ response_type = Some ":pattern".
Proof.
  destruct response_type as [s|]; simpl.
  - rewrite bool_decide_eq_true. split.
    + intros ->. by right.
    + intros [?|?]; congruence.
  - split; [by left | done].
Qed.

(** A variable that is a token stands in its binding as itself. *)
Lemma argument_term_token s : argument_term (KQMLToken s) = KQMLToken s.
Proof. reflexivity. Qed.

(** With too few results for the variables no field list is built. *)
Lemma fields_none_short pat args :
  ∀ results, (length results < count_variables args)%nat →
    buildQueryReply_fields pat args results = None.
Proof.
  induction args as [|each rest IH]; intros results Hlt; simpl in *.
  - lia.
  - destruct (is_variable each) as [[|]|e]; [| |done].
    + destruct results as [|r rs]; [done|].
      simpl in Hlt. rewrite IH by lia. done.
    + rewrite IH by lia. done.
Qed.

(** The text of a KQML object is the lone sigil only for the token [?]:
    a list prints inside parentheses, a string inside quotes. *)
Lemma kqml_str_sigil x :
  bool_decide (kqml_str x = "?") =
    match x with
    | KQMLToken sigil => String.eqb sigil "?"
    | _ => false
    end.
Proof.
  destruct x as [l|t|t].
  - by apply bool_decide_eq_false.
  - destruct (String.eqb_spec t "?") as [->|Hne]; simpl.
    + reflexivity.
    + by apply bool_decide_eq_false.
  - by apply bool_decide_eq_false.
Qed.

Lemma one_char_sigil c : bool_decide (String c "" = "?") = Ascii.eqb c "?".
Proof.
  destruct (Ascii.eqb_spec c "?") as [->|Hne].
  - by apply bool_decide_eq_true.
  - apply bool_decide_eq_false. intros [= ->]. done.
Qed.

(** The test of the code, [str(each[0]) == '?'], decides the variable
    terms. *)
Lemma is_variable_variable_term each :
  is_variable each =
    match variable_term each with
    | Some b => Ok b
    | None => Raise IndexError
    end.
Proof.
  unfold is_variable, variable_term, first_item_str.
  destruct each as [[|x l]|[|c t]|[|c t]]; cbn; unfold mret, result_ret;
    rewrite ?one_char_sigil; try done.
  rewrite kqml_str_sigil. by destruct x.
Qed.

Lemma requests_pattern_mode response_type mode :
  requests response_type mode →
  pattern_mode response_type =
    match mode with Pattern => true | Bind => false end.
Proof.
  intros [| |s Hs]; simpl; [done|done|].
  by apply bool_decide_eq_false.
Qed.

Lemma results_sequence_list results :
  as_results_list results = results_sequence results.
Proof. by destruct results. Qed.

Lemma reply_fields_loop mode args :
  ∀ results,
    buildQueryReply_fields
      match mode with Pattern => true | Bind => false end args results
    = reply_fields mode args results.
Proof.
  induction args as [|each rest IH]; intros results; simpl; [done|].
  rewrite is_variable_variable_term.
  destruct (variable_term each) as [[|]|]; [| |done].
  - destruct results as [|r rs]; [done|]. rewrite IH. by destruct mode.
  - rewrite IH. by destruct mode.
Qed.

Lemma reply_fields_defined mode args :
  ∀ results,
    Forall has_first_item args →
    (variable_count args ≤ length results)%nat →
    is_Some (reply_fields mode args results).
Proof.
  induction args as [|arg rest IH]; intros results Hfirst Hcount; simpl.
  - by eexists.
  - apply Forall_cons in Hfirst as [[b Hb] Hrest]. simpl in Hcount.
    rewrite Hb in *. destruct b.
    + destruct results as [|r rs]; simpl in Hcount; [lia|].
      destruct (IH rs Hrest) as [fields ->]; [lia|]. by eexists.
    + destruct (IH results Hrest Hcount) as [fields ->]. by eexists.
Qed.

(** C2, as amended: for every query [(h arg ...)] whose arguments all
    have a first item, and every results value that holds a result for
    each variable term, the reply content is the predicate followed by
    the fields the arguments give one by one: a variable term (a token
    whose first character is the sigil [?], a quoted string whose content
    starts with it, or a list whose first element is the token [?])
    consumes one result and becomes
    the marshalled result in Pattern mode (the response type is
    unspecified or [:pattern]) or the dotted pair of the argument and the
    marshalled result in Bind mode; any other argument is copied through
    unchanged in Pattern mode and dropped in Bind mode. *)
Theorem response_to_query_per_argument response_type mode h args results :
  requests response_type mode →
  Forall has_first_item args →
  (variable_count args ≤ length (results_sequence results))%nat →
  ∃ fields,
    reply_fields mode args (results_sequence results) = Some fields ∧
    response_to_query_content response_type (h :: args) results
    = Ok (KQMLList (KQMLToken (kqml_str h) :: fields)).
Proof.
  intros Hmode Hfirst Hcount.
  destruct (reply_fields_defined mode args _ Hfirst Hcount)
    as [fields Hfields].
  exists fields. split; [done|].
  rewrite content_by_fields, (requests_pattern_mode _ _ Hmode),
    results_sequence_list, reply_fields_loop, Hfields. done.
Qed.

(** The specification's example in Bind mode, [(likes ?x bob ?y)] with
    the results [alice] and [carol]: two bindings, [bob] dropped. *)
Lemma response_to_query_per_argument_witness :
  ∃ fields,
    reply_fields Bind [KQMLToken "?x"; KQMLToken "bob"; KQMLToken "?y"]
      [PStr "alice"; PStr "carol"] = Some fields ∧
    response_to_query_content (Some ":bind")
      [KQMLToken "likes"; KQMLToken "?x"; KQMLToken "bob"; KQMLToken "?y"]
      (PList [PStr "alice"; PStr "carol"])
    = Ok (KQMLList (KQMLToken "likes" :: fields)).
Proof.
  apply (response_to_query_per_argument (Some ":bind") Bind
           (KQMLToken "likes")
           [KQMLToken "?x"; KQMLToken "bob"; KQMLToken "?y"]
           (PList [PStr "alice"; PStr "carol"])).
  - by apply requests_bind.
  - repeat constructor; by eexists.
  - simpl. lia.
Defined.

(** C2, counterexample: the first character of the argument [(? a)] is a
    parenthesis, not the sigil, yet the code takes it for a variable,
    because the text of its first element is [?]: in Pattern mode the
    argument is not copied through, a result takes its place. *)
Lemma list_headed_by_sigil_counterexample :
  str_first (kqml_str (KQMLList [KQMLToken "?"; KQMLToken "a"]))
    = Some "("%char
  ∧ response_to_query_content None
      [KQMLToken "p"; KQMLList [KQMLToken "?"; KQMLToken "a"]]
      (PList [PStr "x"])
    = Ok (KQMLList [KQMLToken "p"; KQMLToken "x"])
  ∧ response_to_query_content None
      [KQMLToken "p"; KQMLList [KQMLToken "?"; KQMLToken "a"]]
      (PList [PStr "x"])
    ≠ Ok (KQMLList [KQMLToken "p";
                    KQMLList [KQMLToken "?"; KQMLToken "a"]]).
Proof. split_and!; [reflexivity | reflexivity | discriminate]. Qed.

(** The two texts of the specification's example, [(likes ?x ?y)] with
    results [alice] and [bob]. *)
Example reply_pattern_likes :
  reply_msg "agent" (KQMLList [KQMLToken "likes"; KQMLToken "alice";
                               KQMLToken "bob"])
    = "(tell :sender agent :content (likes alice bob))"
  ∧ response_to_query_content None
      [KQMLToken "likes"; KQMLToken "?x"; KQMLToken "?y"]
      (PList [PStr "alice"; PStr "bob"])
    = Ok (KQMLList [KQMLToken "likes"; KQMLToken "alice"; KQMLToken "bob"]).
Proof. split; reflexivity. Qed.

Example reply_bind_likes :
  reply_msg "agent"
    (KQMLList [KQMLToken "likes";
               DottedPair (KQMLToken "?x") (KQMLToken "alice");
               DottedPair (KQMLToken "?y") (KQMLToken "bob")])
    = "(tell :sender agent :content (likes (?x . alice) (?y . bob)))"
  ∧ response_to_query_content (Some ":bind")
      [KQMLToken "likes"; KQMLToken "?x"; KQMLToken "?y"]
      (PList [PStr "alice"; PStr "bob"])
    = Ok (KQMLList [KQMLToken "likes";
                    DottedPair (KQMLToken "?x") (KQMLToken "alice");
                    DottedPair (KQMLToken "?y") (KQMLToken "bob")]).
Proof. split; reflexivity. Qed.

(** C1, the code at the failing input: the query [(p ?x)] has [?x] as its
    final argument and two results remain, yet the reply binds [?x] to the
    first result alone; the list of all remaining results, which the
    comment in the loop announces, would have been [(a b)]. *)
Theorem last_argument_takes_one_result :
  response_to_query_content None [KQMLToken "p"; KQMLToken "?x"]
    (PList [PStr "a"; PStr "b"])
  = Ok (KQMLList [KQMLToken "p"; KQMLToken "a"])
  ∧ listify (PList (drop 0 [PStr "a"; PStr "b"]))
    = KQMLList [KQMLToken "a"; KQMLToken "b"].
Proof. split; reflexivity. Qed.

(** C10: whenever the arguments of the query hold more variables than the
    results list has elements, the call raises IndexError. *)
Theorem response_to_query_index_error response_type content results :
  (length (as_results_list results) < count_variables (tail content))%nat →
  response_to_query_content response_type content results = Raise IndexError.
Proof.
  intros Hlt. destruct content as [|h args]; [simpl in Hlt; lia|].
  rewrite content_by_fields. simpl in Hlt.
  by rewrite fields_none_short.
Qed.

(** Two variables, one scalar result. *)
Lemma response_to_query_index_error_witness :
  response_to_query_content None
    [KQMLToken "likes"; KQMLToken "?x"; KQMLToken "?y"] (PStr "alice")
  = Raise IndexError.
Proof.
  apply response_to_query_index_error. vm_compute. lia.
Defined.

(** ** The port file reader *)

(** What [get_port] does with a record that has a [port] field and with
    [verify] set: the pid must be there and compare equal. *)
Lemma get_port_verified fs portnum_path process_pid d port :
  fs !! portnum_path = Some (File (Some (JDict d))) →
  d !! "port" = Some port →
  get_port fs portnum_path process_pid true =
    match d !! "pid" with
    | Some v => if int_eq process_pid v then Ok port
                else Raise AssertionError
    | None => Raise AssertionError
    end.
Proof.
  intros Hfile Hport. unfold get_port. rewrite Hfile. simpl.
  rewrite Hport. simpl.
  destruct (d !! "pid") as [v|]; simpl; [|done].
  by destruct (int_eq process_pid v).
Qed.

(** C4, as amended: [get_port] returns [None] when the file does not
    exist; it reads the first line as one JSON value; when that line does
    not decode, the decoder's error reaches the caller; when it decodes to
    an object without a [port] field the result is [None]; for an object
    with a [port] field and [verify] unset the result is the value of that
    field. *)
Theorem get_port_cases fs portnum_path process_pid :
  (∀ verify, fs !! portnum_path = None →
     get_port fs portnum_path process_pid verify = Ok JNone) ∧
  (∀ verify, fs !! portnum_path = Some (File None) →
     get_port fs portnum_path process_pid verify = Raise JSONDecodeError) ∧
  (∀ verify d, fs !! portnum_path = Some (File (Some (JDict d))) →
     d !! "port" = None →
     get_port fs portnum_path process_pid verify = Ok JNone) ∧
  (∀ d port, fs !! portnum_path = Some (File (Some (JDict d))) →
     d !! "port" = Some port →
     get_port fs portnum_path process_pid false = Ok port).
Proof.
  unfold get_port. split_and!.
  - by intros verify ->.
  - by intros verify ->.
  - intros verify d -> Hport. simpl. by rewrite Hport.
  - intros d port -> Hport. simpl. by rewrite Hport.
Qed.

(** The valid record read without verification. *)
Lemma get_port_cases_witness :
  get_port {[ sample_path := File (Some sample_record) ]} sample_path 8 false
  = Ok (JInt 9100).
Proof.
  destruct (get_port_cases {[ sample_path := File (Some sample_record) ]}
              sample_path 8) as (_ & _ & _ & Hvalid).
  apply (Hvalid {[ "port" := JInt 9100; "pid" := JInt 7 ]}); reflexivity.
Defined.

(** C4, counterexample: a port file whose first line does not decode
    does not yield [None]; the decoder's error is raised. *)
Lemma get_port_undecodable_counterexample :
  get_port {[ sample_path := File None ]} sample_path 7 false
    = Raise JSONDecodeError
  ∧ get_port {[ sample_path := File None ]} sample_path 7 false ≠ Ok JNone.
Proof. split; [reflexivity | discriminate]. Qed.

(** C5: for a record with a [port] field read with [verify] set, the port
    is returned exactly when the [pid] field is present and equal to the
    expected pid; a missing [pid] and a mismatch both raise the assertion
    error to the caller, neither yields [None]. *)
Theorem get_port_verify fs portnum_path process_pid d port :
  fs !! portnum_path = Some (File (Some (JDict d))) →
  d !! "port" = Some port →
  (d !! "pid" = None →
     get_port fs portnum_path process_pid true = Raise AssertionError) ∧
  (∀ v, d !! "pid" = Some v → int_eq process_pid v = false →
     get_port fs portnum_path process_pid true = Raise AssertionError) ∧
  (∀ v, d !! "pid" = Some v → int_eq process_pid v = true →
     get_port fs portnum_path process_pid true = Ok port) ∧
  (∀ r, get_port fs portnum_path process_pid true = Ok r →
     r = port ∧ ∃ v, d !! "pid" = Some v ∧ int_eq process_pid v = true).
Proof.
  intros Hfile Hport.
  rewrite (get_port_verified _ _ _ _ _ Hfile Hport). split_and!.
  - by intros ->.
  - by intros v -> ->.
  - by intros v -> ->.
  - intros r. destruct (d !! "pid") as [v|]; [|done].
    destruct (int_eq process_pid v) eqn:Heq; [|done].
    intros [= <-]. eauto.
Qed.

(** The sample record read for pid 8: the pids differ, the call raises. *)
Lemma get_port_verify_witness :
  get_port {[ sample_path := File (Some sample_record) ]} sample_path 8 true
  = Raise AssertionError.
Proof.
  destruct (get_port_verify {[ sample_path := File (Some sample_record) ]}
              sample_path 8 {[ "port" := JInt 9100; "pid" := JInt 7 ]}
              (JInt 9100)) as (_ & Hmismatch & _); [reflexivity ..|].
  apply (Hmismatch (JInt 7)); reflexivity.
Defined.

(** ** Discovery *)

(** A search that finds nothing leaves the iterator empty. *)
Lemma next_named_exhausts key processes :
  forallb (λ p, negb (is_substring key (name p))) processes = true →
  next_named key processes = (None, []).
Proof.
  induction processes as [|p rest IH]; simpl; [done|].
  intros [Hp Hrest]%andb_true_iff.
  apply negb_true_iff in Hp. rewrite Hp. by apply IH.
Qed.

(** Unless a process named after the first executable runs, nothing is
    found, whatever else runs and whatever is on disk: the first search
    uses up the processes, and the later ones see none. *)
Lemma check_for_companions_first_exe_only m verify :
  forallb (λ p, negb (is_substring "CompanionsMicroServer64.exe" (name p)))
          (running m) = true →
  check_for_companions m verify = Ok JNone.
Proof.
  intros Hnone. unfold check_for_companions. simpl.
  rewrite (next_named_exhausts _ _ Hnone). simpl.
  by destruct (find_qrg _ _).
Qed.

(** C8, the code at the failing input: with [CompanionsServer64.exe]
    running and a valid port file beside it, the routine returns [None],
    where a search of the running processes for each name in order finds
    the process and returns its port, 9100. *)
Theorem check_for_companions_misses_second_exe :
  check_for_companions server_only false = Ok JNone
  ∧ discover server_only false = Ok (JInt 9100).
Proof. split; reflexivity. Qed.

(** A match on the first executable name wins over a development
    installation that is present as well. *)
Example check_for_companions_prefers_first_exe :
  check_for_companions micro_and_allegro true = Ok (JInt 9100).
Proof. reflexivity. Qed.

(** The development-mode step is missed in the same way. *)
Example check_for_companions_misses_allegro :
  check_for_companions allegro_only false = Ok JNone
  ∧ discover allegro_only false = Ok (JInt 9100).
Proof. split; reflexivity. Qed.

(** ** The outbound connection *)

Lemma connect_accepted net c :
  connect_ok net = true →
  connect net c =
    (Ok (),
     {| send_socket := Some (sockets_made c);
        out := Some (sockets_made c);
        open_sockets := {[sockets_made c]} ∪ open_sockets c;
        connected := {[sockets_made c]} ∪ connected c;
        sockets_made := S (sockets_made c);
        wire := wire c ++ [EvConnect (sockets_made c)] |}).
Proof.
  intros Hok. unfold connect, try_except_OSError, sock_connect.
  cbn. rewrite Hok. reflexivity.
Qed.

Lemma connect_refused net c :
  connect_ok net = false →
  connect net c =
    (assert (bool_decide (is_Some (out c))),
     {| send_socket := Some (sockets_made c);
        out := out c;
        open_sockets := {[sockets_made c]} ∪ open_sockets c;
        connected := connected c;
        sockets_made := S (sockets_made c);
        wire := wire c |}).
Proof.
  intros Hno. unfold connect, try_except_OSError, sock_connect.
  cbn. rewrite Hno. reflexivity.
Qed.

(** C6, as amended: [send] opens one fresh socket, and when the
    connection is accepted and the newline write, the flush and the
    shutdown go through, it writes the message and the newline, flushes,
    shuts the socket down, closes it and clears both fields; this holds
    both when the message write succeeds and when it raises an I/O error,
    which [send_generic] catches.  The socket is the one created in this
    call, never one of an earlier call. *)
Theorem send_completes net msg c :
  connect_ok net = true → newline_write_ok net = true →
  flush_ok net = true → shutdown_ok net = true →
  let s := sockets_made c in
  let after :=
    {| send_socket := None; out := None;
       open_sockets := ({[s]} ∪ open_sockets c) ∖ {[s]};
       connected := ({[s]} ∪ connected c) ∖ {[s]};
       sockets_made := S s;
       wire := wire c ++ send_events net msg s |} in
  send net msg c = (Ok (), after) ∧ released c after.
Proof.
  intros Hconn Hnl Hflush Hshut s after. split.
  - unfold send. unfold mbind at 1, io_bind.
    rewrite (connect_accepted _ _ Hconn).
    unfold send_generic, try_except_OSError, writer_op, sock_shutdown.
    rewrite Hnl, Hflush, Hshut.
    destruct (msg_write_ok net) eqn:Hmsg; run_io;
      rewrite bool_decide_true by set_solver; run_io;
      unfold after, send_events; rewrite Hmsg;
      repeat rewrite <- app_assoc; reflexivity.
  - unfold released, after. simpl. split_and!; [done..|].
    rewrite elem_of_difference, elem_of_singleton. tauto.
Qed.

(** The first [send] of an agent whose message write raises: the error is
    caught, the newline goes out and the socket is closed. *)
Lemma send_completes_witness :
  send msg_write_fails "(ping)" sender_init
  = (Ok (),
     {| send_socket := None; out := None;
        open_sockets := ({[0%nat]} ∪ ∅) ∖ {[0%nat]};
        connected := ({[0%nat]} ∪ ∅) ∖ {[0%nat]};
        sockets_made := 1;
        wire := [EvConnect 0; EvWrite 0 (String (ascii_of_nat 10) "");
                 EvFlush 0; EvShutdown 0; EvClose 0] |}).
Proof.
  apply (send_completes msg_write_fails "(ping)" sender_init);
    reflexivity.
Defined.

(** C6, counterexample: when the flush raises, the error leaves [send]
    before the shutdown and the close; the socket stays open and both
    fields keep their handles. *)
Lemma send_flush_error_counterexample :
  (send flush_fails "(ping)" sender_init).1 = Raise OSError
  ∧ ¬ released sender_init (send flush_fails "(ping)" sender_init).2.
Proof.
  split; [reflexivity|].
  intros (Hsock & _). vm_compute in Hsock. discriminate Hsock.
Qed.

(** C7, as amended: [connect] creates a fresh socket and stores it in
    [send_socket]; when the connection is accepted it is connected and
    [out] is a writer on it; when the operating system refuses, the error
    is caught and, no writer being held from before, the call fails with
    an assertion error, while the new socket stays open, unconnected and
    referenced by [send_socket]. *)
Theorem connect_outcomes net c :
  let s := sockets_made c in
  let r := connect net c in
  send_socket r.2 = Some s ∧ s ∈ open_sockets r.2 ∧
  (connect_ok net = true →
     r.1 = Ok () ∧ out r.2 = Some s ∧ s ∈ connected r.2) ∧
  (connect_ok net = false → out c = None →
     r.1 = Raise AssertionError ∧ out r.2 = None ∧
     connected r.2 = connected c ∧ ¬ released c r.2).
Proof.
  intros s r. unfold r, s.
  destruct (connect_ok net) eqn:Hnet.
  - rewrite (connect_accepted _ _ Hnet). simpl.
    split_and!; [done | | | done].
    + apply elem_of_union_l. by apply elem_of_singleton.
    + intros _. split_and!; [done..|].
      apply elem_of_union_l. by apply elem_of_singleton.
  - rewrite (connect_refused _ _ Hnet). simpl.
    split_and!; [done | | done |].
    + apply elem_of_union_l. by apply elem_of_singleton.
    + intros _ Hout. rewrite Hout. simpl. split_and!; [done..|].
      intros (Hsock & _). discriminate Hsock.
Qed.

(** The first connection of an agent, refused. *)
Lemma connect_outcomes_witness :
  (connect refused sender_init).1 = Raise AssertionError
  ∧ send_socket (connect refused sender_init).2 = Some 0%nat.
Proof.
  destruct (connect_outcomes refused sender_init)
    as (Hsock & _ & _ & Hrefused).
  destruct Hrefused as (Hraise & _); [reflexivity..|].
  split; [exact Hraise | exact Hsock].
Defined.

(** C7, counterexample: after a refused connection the caller gets an
    assertion error, not the operating system's error, and the socket
    made by the call is still open and held in [send_socket]. *)
Lemma connect_refused_counterexample :
  (connect refused sender_init).1 ≠ Raise OSError
  ∧ ¬ released sender_init (connect refused sender_init).2.
Proof.
  split; [discriminate|].
  intros (Hsock & _). vm_compute in Hsock. discriminate Hsock.
Qed.

(** ** The listener's state *)

Lemma run_reachable es : ∀ d, reachable d → reachable (run es d).
Proof.
  induction es as [|e es IH]; intros d Hd; simpl; [done|].
  apply IH. destruct (step e d) as [d'|] eqn:Hstep; simpl; [|done].
  by apply (reachable_step e d).
Qed.

Lemma step_state e d d' :
  step e d = Some d' →
  state d' = state d ∨ state d' = "idle" ∨ state d' = "dispatching".
Proof.
  destruct e; simpl.
  - destruct (listener_at d); intros [= <-]; simpl; auto.
  - destruct (listener_at d); intros [= <-]; simpl; auto.
  - destruct (listener_at d); intros [= <-]; simpl; auto.
  - destruct (dispatcher d); intros [= <-]; simpl; auto.
  - intros [= <-]; simpl; auto.
Qed.

(** C9, as amended: the [state] field starts as [idle]; the listener sets
    it to [dispatching] after it has accepted a connection and submitted
    its dispatcher; [receive_eof], run with a dispatcher in place, sets it
    back to [idle]; [exit] clears [ready] and leaves [state] as it is, and
    so do the other steps of the listener; in every execution [state] is
    [idle] or [dispatching]. *)
Theorem state_transitions :
  state dispatch_init = "idle" ∧
  (∀ d d', step MarkDispatching d = Some d' → state d' = "dispatching") ∧
  (∀ d d', step ReceiveEof d = Some d' → is_Some (dispatcher d) →
     state d' = "idle") ∧
  (∀ d d', step Exit d = Some d' → state d' = state d ∧ ready d' = false) ∧
  (∀ d d', step LoopTest d = Some d' → state d' = state d) ∧
  (∀ d d', step Accepted d = Some d' → state d' = state d) ∧
  (∀ d, reachable d → state d = "idle" ∨ state d = "dispatching").
Proof.
  split_and!.
  - done.
  - intros d d'. simpl. by destruct (listener_at d); intros [= <-].
  - intros d d' Hstep [n Hn]. simpl in Hstep. rewrite Hn in Hstep.
    by injection Hstep as <-.
  - intros d d' [= <-]. done.
  - intros d d'. simpl. by destruct (listener_at d); intros [= <-].
  - intros d d'. simpl. by destruct (listener_at d); intros [= <-].
  - intros d Hd. induction Hd as [|e d d' _ IH Hstep]; [by left|].
    destruct (step_state _ _ _ Hstep) as [->|[->| ->]]; auto.
Qed.

(** One connection served and ended, from the initial state. *)
Lemma state_transitions_witness :
  state (run [LoopTest; Accepted; MarkDispatching] dispatch_init)
    = "dispatching"
  ∧ state (run [LoopTest; Accepted; MarkDispatching; ReceiveEof]
             dispatch_init) = "idle".
Proof.
  destruct state_transitions as (_ & Hmark & Heof & _).
  split.
  - apply (Hmark (run [LoopTest; Accepted] dispatch_init)). reflexivity.
  - apply (Heof (run [LoopTest; Accepted; MarkDispatching] dispatch_init));
      [reflexivity | by eexists].
Defined.

(** C9, counterexample: after [exit], and after the listener has left its
    loop, the state is still [idle]; no step ever sets it to [stopped]. *)
Lemma exit_not_stopped_counterexample :
  state (run [Exit; LoopTest] dispatch_init) = "idle"
  ∧ listener_at (run [Exit; LoopTest] dispatch_init) = Returned
  ∧ state (run [Exit; LoopTest] dispatch_init) ≠ "stopped".
Proof. split_and!; [reflexivity | reflexivity | discriminate]. Qed.

(** The worker may reach the end of its stream before the listener marks
    the state: the agent is then left [dispatching] with no dispatcher. *)
Example eof_before_mark :
  let d := run [LoopTest; Accepted; ReceiveEof; MarkDispatching]
             dispatch_init in
  state d = "dispatching" ∧ dispatcher d = None.
Proof. split; reflexivity. Qed.

(** * Further properties *)

Set Warnings "-clear-no-such-hyp".

(** ** The reply builder: size of the reply, surplus results *)

Lemma fields_length pat args :
  ∀ results fields,
    buildQueryReply_fields pat args results = Some fields →
    length fields = if pat then length args else count_variables args.
Proof.
  induction args as [|each rest IH]; intros results fields; simpl.
  - intros [= <-]. by destruct pat.
  - destruct (is_variable each) as [[|]|e]; [| |done].
    + destruct results as [|r rs]; [done|].
      destruct (buildQueryReply_fields pat rest rs) as [fs|] eqn:Hfs;
        simpl; [|done].
      intros [= <-]. simpl. rewrite (IH _ _ Hfs). by destruct pat.
    + destruct (buildQueryReply_fields pat rest results) as [fs|] eqn:Hfs;
        simpl; [|done].
      intros [= <-]. specialize (IH _ _ Hfs). destruct pat; simpl; lia.
Qed.

(** X1: the list [reply_content] that the loop builds, before it is
    printed into the [tell] and parsed again, has in Pattern mode exactly
    as many elements as the query, and in Bind mode the predicate and one
    binding for each variable argument. *)
Theorem reply_length response_type content results reply :
  response_to_query_content response_type content results
    = Ok (KQMLList reply) →
  length reply =
    if pattern_mode response_type then length content
    else S (count_variables (tail content)).
Proof.
  destruct content as [|h args]; [done|].
  rewrite content_by_fields.
  destruct (buildQueryReply_fields _ _ _) as [fields|] eqn:Hf; [|done].
  intros [= <-]. simpl. rewrite (fields_length _ _ _ _ Hf).
  by destruct (pattern_mode response_type).
Qed.

Lemma reply_length_witness :
  length [KQMLToken "likes";
          DottedPair (KQMLToken "?x") (KQMLToken "alice")] = 2%nat.
Proof.
  apply (reply_length (Some ":bind")
           [KQMLToken "likes"; KQMLToken "?x"; KQMLToken "bob"]
           (PStr "alice")).
  reflexivity.
Defined.

Lemma fields_take pat args :
  ∀ results,
    buildQueryReply_fields pat args results
    = buildQueryReply_fields pat args (take (count_variables args) results).
Proof.
  induction args as [|each rest IH]; intros results; simpl; [done|].
  destruct (is_variable each) as [[|]|e]; [| |done].
  - destruct results as [|r rs]; simpl; [done|]. by rewrite (IH rs).
  - by rewrite (IH results).
Qed.

(** X2: results beyond the number of variable arguments are never looked
    at: the reply is the one built from the first results alone. *)
Theorem surplus_results_ignored response_type h args results :
  response_to_query_content response_type (h :: args) (PList results)
  = response_to_query_content response_type (h :: args)
      (PList (take (count_variables args) results)).
Proof.
  rewrite !content_by_fields. simpl. by rewrite fields_take.
Qed.

(** ** Booleans and integers through the marshaller and back *)

Lemma listify_str_token s t :
  listify_str s = KQMLToken t → s = t ∧ has_space s = false.
Proof.
  rewrite listify_str_body.
  destruct (has_space s); [by destruct (wrapped s)|].
  by intros [= ->].
Qed.

Lemma listify_str_empty_list s :
  listify_str s = KQMLList [] ↔
  has_space s = true ∧ wrapped s = true ∧ split (str_inner s) = [].
Proof.
  rewrite listify_str_body.
  destruct (has_space s); [|split; [done|by intros [? _]]].
  destruct (wrapped s); [|split; [done|by intros (_ & ? & _)]].
  split.
  - intros [= H]. by destruct (split (str_inner s)).
  - by intros (_ & _ & ->).
Qed.

Lemma convert_to_boolean_listify_false v :
  convert_to_boolean (PObj (OKqml (listify v))) = false ↔
  v = PBool false ∨ v = PStr "nil" ∨ (∃ o, v = PObj o ∧ obj_str o = "nil") ∨
  v = PList [] ∨ v = PTuple [] ∨ v = PDict [] ∨
  (∃ s, v = PStr s ∧ has_space s = true ∧ wrapped s = true ∧
        split (str_inner s) = []).
Proof.
  destruct v as [items|items|s|items|b|o]; simpl.
  - destruct items; simpl; naive_solver.
  - destruct items as [|x [|y [|z items]]]; simpl; naive_solver.
  - destruct (listify_str s) as [l|t|t] eqn:Hs; simpl.
    + rewrite negb_false_iff, bool_decide_eq_true. split.
      * intros Hl. destruct l; [|done].
        apply listify_str_empty_list in Hs. naive_solver.
      * intros [?|[?|[(o & ? & _)|[?|[?|[?|(s' & Heq & H)]]]]]]; try done.
        -- injection H as ->. vm_compute in Hs. discriminate Hs.
        -- injection Heq as <-. apply listify_str_empty_list in H.
           rewrite H in Hs. by injection Hs as <-.
    + apply listify_str_token in Hs as [-> Hsp].
      rewrite negb_false_iff, bool_decide_eq_true. split.
      * intros ->. auto.
      * intros [?|[?|[(o & ? & _)|[?|[?|[?|(s' & Heq & H & _)]]]]]];
          try done; [congruence|].
        injection Heq as <-. congruence.
    + split; [done|].
      intros [?|[?|[(o & ? & _)|[?|[?|[?|(s' & Heq & H)]]]]]]; try done.
      * injection H as ->. vm_compute in Hs. discriminate Hs.
      * injection Heq as <-. apply listify_str_empty_list in H.
        congruence.
  - destruct items; simpl; naive_solver.
  - destruct b; simpl; naive_solver.
  - rewrite negb_false_iff, bool_decide_eq_true. naive_solver.
Qed.

(** X3: a native value comes back false from [convert_to_boolean] after
    marshalling exactly when it is [False], the string [nil], an object
    whose text is [nil], an empty list, tuple or dict, or a string that
    contains a space character, starts and ends with a parenthesis and
    has nothing but whitespace between them; every other value comes back
    true.  So booleans survive the round trip, [( )] is false, and the
    strings [()] and [(<TAB>)], which hold no space character and become
    tokens, are true. *)
Theorem convert_to_boolean_listify :
  (∀ v,
     convert_to_boolean (PObj (OKqml (listify v))) = false ↔
     v = PBool false ∨ v = PStr "nil" ∨
     (∃ o, v = PObj o ∧ obj_str o = "nil") ∨
     v = PList [] ∨ v = PTuple [] ∨ v = PDict [] ∨
     (∃ s, v = PStr s ∧ has_space s = true ∧ wrapped s = true ∧
           split (str_inner s) = [])) ∧
  (∀ b, convert_to_boolean (PObj (OKqml (listify (PBool b)))) = b) ∧
  convert_to_boolean (PObj (OKqml (listify (PStr "( )")))) = false ∧
  convert_to_boolean (PObj (OKqml (listify (PStr "()")))) = true ∧
  convert_to_boolean
    (PObj (OKqml (listify (PStr ("(" +:+ tab +:+ ")"))))) = true.
Proof.
  split_and!;
    [apply convert_to_boolean_listify_false | by intros [] | reflexivity..].
Qed.

(** ** Argument checking *)

(** X5: whatever the builtin [int] does, [valid_port] returns [n] exactly
    when [int] reads the string as an integer [n] with
    [1024 < n < 65535]; it raises ArgumentTypeError exactly when [int]
    reads an integer outside that open interval, 1024 and 65535 included;
    and exactly when [int] raises ValueError the function is left with
    UnboundLocalError, never with ArgumentTypeError. *)
Theorem valid_port_range (int : string → option Z) (s : string) :
  (∀ n, valid_port int s = inr n ↔ int s = Some n ∧ 1024 < n < 65535) ∧
  (valid_port int s = inl ArgumentTypeError ↔
     ∃ n, int s = Some n ∧ (n ≤ 1024 ∨ 65535 ≤ n)) ∧
  (valid_port int s = inl UnboundLocalError ↔ int s = None).
Proof.
  unfold valid_port. destruct (int s) as [m|].
  - destruct (decide (1024 < m < 65535)) as [Hin|Hout].
    + assert ((1024 <? m) && (m <? 65535) = true) as ->.
      { apply andb_true_iff. rewrite !Z.ltb_lt. lia. }
      simpl. split_and!.
      * intros n. split; [by intros [= <-] | by intros [[= <-] _]].
      * split; [done|]. intros (n & [= <-] & ?). lia.
      * split; done.
    + assert ((1024 <? m) && (m <? 65535) = false) as ->.
      { apply andb_false_iff. rewrite !Z.ltb_ge. lia. }
      simpl. split_and!.
      * intros n. split; [done|]. intros [[= <-] ?]. lia.
      * split; [|done]. intros _. exists m. split; [done|lia].
      * split; done.
  - split_and!.
    + intros n. split; [done|]. by intros [? _].
    + split; [done|]. by intros (n & ? & _).
    + done.
Qed.

(** ** The port file reader: what a returned port stands for *)

(** X6: whenever [get_port] returns something other than [None], the
    first line of the file decoded to a dict, the value is that dict's
    [port], and under [verify] the dict's [pid] compared equal to the
    expected pid.  Lists, strings and numbers in the file never yield a
    port. *)
Theorem get_port_sound fs portnum_path process_pid verify v :
  get_port fs portnum_path process_pid verify = Ok v → v ≠ JNone →
  ∃ d, fs !! portnum_path = Some (File (Some (JDict d))) ∧
       d !! "port" = Some v ∧
       (verify = true →
          ∃ w, d !! "pid" = Some w ∧ int_eq process_pid w = true).
Proof.
  unfold get_port. intros Hget Hv.
  destruct (fs !! portnum_path) as [[|[port_dict|]]|]; simpl in Hget;
    try done; [|congruence].
  destruct port_dict as [|b|n|s|items|d]; simpl in Hget; try done.
  - destruct (is_substring "port" s); simpl in Hget; [|congruence].
    by destruct verify, (is_substring "pid" s).
  - destruct (existsb _ items); simpl in Hget; [|congruence].
    destruct verify; [|done]. simpl in Hget.
    by destruct (existsb _ items).
  - exists d. split; [done|].
    destruct (d !! "port") as [port|] eqn:Hport; simpl in Hget;
      [|congruence].
    destruct verify; simpl in Hget.
    + destruct (d !! "pid") as [w|] eqn:Hpid; simpl in Hget; [|done].
      destruct (int_eq process_pid w) eqn:Heq; simpl in Hget; [|done].
      injection Hget as <-. eauto.
    + injection Hget as <-. split; [done|]. done.
Qed.

Lemma get_port_sound_witness :
  ∃ d, ({[ sample_path := File (Some sample_record) ]} : filesystem)
         !! sample_path = Some (File (Some (JDict d))) ∧
       d !! "port" = Some (JInt 9100) ∧
       (true = true → ∃ w, d !! "pid" = Some w ∧ int_eq 7 w = true).
Proof.
  apply (get_port_sound {[ sample_path := File (Some sample_record) ]}
           sample_path 7 true (JInt 9100)); [reflexivity | discriminate].
Defined.

(** ** Discovery: priority, failures, and what is never found *)

Lemma next_named_first key before p after :
  forallb (λ q, negb (is_substring key (name q))) before = true →
  is_substring key (name p) = true →
  next_named key (before ++ p :: after) = (Some p, after).
Proof.
  intros Hbefore Hp. induction before as [|q before IH]; simpl.
  - by rewrite Hp.
  - simpl in Hbefore. apply andb_true_iff in Hbefore as [Hq Hbefore].
    apply negb_true_iff in Hq. rewrite Hq. by apply IH.
Qed.

(** X7: when a process named after the first executable runs, the port
    file beside the first such process decides the first step: a port
    with a true truth value is the result whatever else runs or is
    installed, and an exception from reading it (a failed verification, an
    undecodable file) ends the discovery without the development-mode
    step being tried. *)
Theorem check_for_companions_first_step m verify before p after portnum_path :
  running m = before ++ p :: after →
  forallb (λ q, negb (is_substring "CompanionsMicroServer64.exe" (name q)))
          before = true →
  is_substring "CompanionsMicroServer64.exe" (name p) = true →
  with_name (exe p) PORTNUM = Ok portnum_path →
  (∀ v, get_port (files m) portnum_path (pid p) verify = Ok v →
        truthy v = true → check_for_companions m verify = Ok v) ∧
  (∀ e, get_port (files m) portnum_path (pid p) verify = Raise e →
        check_for_companions m verify = Raise e).
Proof.
  intros Hrun Hbefore Hp Hpath. unfold check_for_companions.
  rewrite Hrun. simpl. rewrite (next_named_first _ _ _ _ Hbefore Hp).
  simpl. rewrite Hpath. simpl. split.
  - intros v -> Hv. simpl. by rewrite Hv.
  - by intros e ->.
Qed.

Lemma check_for_companions_first_step_witness :
  check_for_companions micro_and_allegro true = Ok (JInt 9100).
Proof.
  destruct (check_for_companions_first_step micro_and_allegro true
              [ {| pid := 3; name := "allegro.exe";
                   exe := ["acl"; "allegro.exe"] |} ]
              {| pid := 7; name := "CompanionsMicroServer64.exe";
                 exe := ["opt"; "companions";
                         "CompanionsMicroServer64.exe"] |}
              [] sample_path) as [Hport _]; [reflexivity..|].
  apply Hport; reflexivity.
Defined.



(** ** The constructor helper *)

(** X9: discovery is consulted only when no port is given and the host is
    absent, empty or one of the local names.  With a port given, or with
    any other host, [init_check_companions] is the call of [cls] on the
    keywords made from the arguments alone, whatever the machine looks
    like: it returns or raises as that call does, and the port keyword is
    the given port or absent. *)
Theorem init_check_companions_no_discovery {A : Type}
    (cls : kwargs → result A) m host port listener_port debug verify_port :
  int_given port = true ∨ host_is_local host = false →
  init_check_companions cls m host port listener_port debug verify_port =
    cls {| kw_host := if host_given host then host else None;
           kw_port := if int_given port then JInt <$> port else None;
           kw_listener_port :=
             if int_given listener_port then listener_port else None;
           kw_debug := if debug_given debug then debug else None |}.
Proof.
  intros Hskip. unfold init_check_companions, init_check_companions_kwargs.
  assert (negb (int_given port) && host_is_local host = false) as ->.
  { destruct Hskip as [-> | ->]; [done | apply andb_false_r]. }
  reflexivity.
Qed.

(** A constructor that refuses a port outside the range of [valid_port],
    as the assertion of [__init__] does. *)
Lemma init_check_companions_no_discovery_witness :
  init_check_companions
    (λ kw, match kw_port kw with
           | Some (JInt 5) => Raise AssertionError
           | _ => Ok kw
           end)
    allegro_only (Some "10.0.0.5") (Some 5) None None true
  = Raise AssertionError.
Proof.
  rewrite (init_check_companions_no_discovery _ allegro_only
             (Some "10.0.0.5") (Some 5) None None true);
    [reflexivity | left; reflexivity].
Defined.

(** X10: called without a port for a local host on a machine where no
    process is named after the first executable, [init_check_companions]
    passes no port on, so the agent is built with the default port 9000,
    even when another Companions executable or a development installation
    is running. *)
Theorem init_check_companions_default_port m host listener_port debug
    verify_port kw :
  forallb (λ p, negb (is_substring "CompanionsMicroServer64.exe" (name p)))
          (running m) = true →
  host_is_local host = true →
  init_check_companions_kwargs m host None listener_port debug verify_port
    = Ok kw →
  kw_port kw = None ∧ port_used kw = JInt 9000.
Proof.
  intros Hnone Hlocal. unfold init_check_companions_kwargs. simpl.
  rewrite Hlocal. simpl.
  rewrite (check_for_companions_first_exe_only _ _ Hnone). simpl.
  by intros [= <-].
Qed.

Lemma init_check_companions_default_port_witness :
  port_used {| kw_host := None; kw_port := None; kw_listener_port := None;
               kw_debug := None |} = JInt 9000.
Proof.
  apply (init_check_companions_default_port server_only None None None
           false); reflexivity.
Defined.

(** ** The outbound connection over several calls *)

Lemma send_cases net msg c :
  let s := sockets_made c in
  let r := send net msg c in
  sockets_made r.2 = S s ∧
  open_sockets r.2 ⊆ {[s]} ∪ open_sockets c ∧
  open_sockets c ∖ {[s]} ⊆ open_sockets r.2 ∧
  connected r.2 ⊆ {[s]} ∪ connected c ∧
  (s ∈ connected r.2 → s ∈ open_sockets r.2) ∧
  (r.1 = Ok () →
     (connect_ok net = true ∨ s ∈ connected c) ∧
     send_socket r.2 = None ∧ out r.2 = None ∧
     open_sockets r.2 = ({[s]} ∪ open_sockets c) ∖ {[s]} ∧
     connected r.2 = ({[s]} ∪ connected c) ∖ {[s]}).
Proof.
  intros s r. unfold r, s. clear r s.
  destruct (send net msg c) as [res after] eqn:Hsend. simpl.
  revert Hsend. unfold send. unfold mbind at 1, io_bind.
  destruct (connect_ok net) eqn:Hconn.
  - rewrite (connect_accepted _ _ Hconn).
    unfold send_generic, try_except_OSError, writer_op, sock_shutdown.
    destruct (msg_write_ok net), (newline_write_ok net), (flush_ok net),
      (shutdown_ok net); run_io;
      rewrite ?bool_decide_true
        by (apply elem_of_union_l, elem_of_singleton; done);
      run_io; intros [= <- <-]; simpl.
    all: split_and!; try done;
      try (intros _; split_and!; try done; auto).
    all: try set_solver.
  - rewrite (connect_refused _ _ Hconn).
    destruct (out c) as [w|] eqn:Hout; simpl.
    + unfold send_generic, try_except_OSError, writer_op, sock_shutdown.
      destruct (msg_write_ok net), (newline_write_ok net), (flush_ok net),
        (shutdown_ok net); run_io; rewrite ?Hout; run_io;
        try destruct (bool_decide_reflect (sockets_made c ∈ connected c));
        run_io; intros [= <- <-]; simpl.
      all: split_and!; try done;
        try (intros _; split_and!; try done; auto).
      all: try set_solver.
    + intros [= <- <-]. simpl. split_and!; try done; set_solver.
Qed.

(** X11: on a sender whose two fields hold nothing from an earlier call,
    whatever happens on the network, one call of [send] makes exactly one
    new socket and neither opens nor closes any other socket of the
    process. *)
Theorem send_one_socket net msg c :
  send_socket c = None → out c = None →
  let s := sockets_made c in
  let after := (send net msg c).2 in
  sockets_made after = S s ∧
  (∀ s', s' ≠ s → s' ∈ open_sockets after ↔ s' ∈ open_sockets c).
Proof.
  intros _ _ s after.
  destruct (send_cases net msg c) as (Hmade & Hsub & Hkeep & _).
  split; [done|]. intros s' Hne. unfold after. set_solver.
Qed.

Lemma send_wf net msg c : sender_wf c → sender_wf (send net msg c).2.
Proof.
  intros [Hlt Hconn].
  destruct (send_cases net msg c) as (Hmade & Hsub & _ & Hc & Hs & _).
  split.
  - intros s Hs'. rewrite Hmade. apply Hsub in Hs'.
    apply elem_of_union in Hs' as [->%elem_of_singleton|Hs'];
      [lia | specialize (Hlt _ Hs'); lia].
  - intros s' Hs'.
    destruct (decide (s' = sockets_made c)) as [->|Hne]; [by apply Hs|].
    destruct (send_cases net msg c) as (_ & _ & Hkeep & _).
    apply Hkeep. apply Hc in Hs'. set_solver.
Qed.

Lemma send_one_socket_witness :
  sockets_made (send flush_fails "(ping)" sender_init).2 = 1%nat.
Proof.
  apply (send_one_socket flush_fails "(ping)" sender_init); reflexivity.
Defined.

(** X12: on a sender whose open sockets were all made by earlier calls
    and whose two fields hold nothing from an earlier call, a [send] that
    returns normally leaves the set of open sockets exactly as it found
    it and both fields cleared again, and it can only return normally
    when the connection was accepted; in every outcome the sender stays
    well formed. *)
Theorem send_restores net msg c :
  sender_wf c → send_socket c = None → out c = None →
  let after := (send net msg c).2 in
  sender_wf after ∧
  ((send net msg c).1 = Ok () →
     connect_ok net = true ∧ open_sockets after = open_sockets c ∧
     send_socket after = None ∧ out after = None).
Proof.
  intros Hwf _ _ after. split; [by apply send_wf|].
  intros Hok. destruct Hwf as [Hlt Hconn].
  destruct (send_cases net msg c) as (_ & _ & _ & _ & _ & Hdone).
  destruct (Hdone Hok) as (Hacc & Hsock & Hout & Hopen & _).
  assert (sockets_made c ∉ open_sockets c) as Hfresh.
  { intros Hin. specialize (Hlt _ Hin). lia. }
  split_and!; [|unfold after; rewrite Hopen; set_solver|done..].
  destruct Hacc as [?|Hin]; [done|]. apply Hconn in Hin. done.
Qed.

Lemma sender_init_wf : sender_wf sender_init.
Proof. split; [intros s Hs; set_solver | done]. Qed.

Lemma send_restores_witness :
  sender_wf (send msg_write_fails "(ping)" sender_init).2.
Proof.
  apply (send_restores msg_write_fails "(ping)" sender_init sender_init_wf);
    reflexivity.
Defined.

(** X13: a refused connection goes unnoticed when a writer is left over
    from an earlier call: with [out] still set, [connect] passes its
    assertion, the message, the newline and the flush go to the old
    writer, and the call fails only at the shutdown of the new,
    unconnected socket, which stays open. *)
Theorem send_on_stale_writer net msg c w :
  sender_wf c → out c = Some w →
  connect_ok net = false → msg_write_ok net = true →
  newline_write_ok net = true → flush_ok net = true →
  let s := sockets_made c in
  let r := send net msg c in
  r.1 = Raise OSError ∧
  wire r.2 = wire c ++ [EvWrite w msg;
                         EvWrite w (String (ascii_of_nat 10) "");
                         EvFlush w] ∧
  out r.2 = Some w ∧ send_socket r.2 = Some s ∧ s ∈ open_sockets r.2.
Proof.
  intros [Hlt Hconn] Hout Hrefused Hmsg Hnl Hflush s r.
  assert (s ∉ connected c) as Hfresh.
  { intros Hin. apply Hconn, Hlt in Hin. unfold s in Hin. lia. }
  unfold r, send, connect, send_generic, try_except_OSError, writer_op,
    sock_connect, sock_shutdown.
  rewrite Hrefused, Hmsg, Hnl, Hflush. run_io. rewrite Hout. run_io.
  rewrite bool_decide_false by done. rewrite andb_false_r. run_io.
  split_and!; [done| |done|done|set_solver].
  by rewrite <- !app_assoc.
Qed.

Lemma send_on_stale_writer_witness :
  (send refused "(second)" after_failed_flush).1 = Raise OSError
  ∧ wire (send refused "(second)" after_failed_flush).2
    = wire after_failed_flush
      ++ [EvWrite 0 "(second)"; EvWrite 0 (String (ascii_of_nat 10) "");
          EvFlush 0].
Proof.
  destruct (send_on_stale_writer refused "(second)" after_failed_flush 0%nat)
    as (Hraise & Hwire & _); [|reflexivity..|by split].
  apply (send_wf flush_fails "(first)" sender_init sender_init_wf).
Defined.

(** X14: [send_generic], and with it a reply on the listener's
    connection, touches no socket: the two fields and the open and
    connected sockets are as before, what was on the wire stays there, and
    when it returns normally the last two events on the writer are the
    newline and the flush, also after a failed message write. *)
Theorem send_generic_frame net msg w c :
  let r := send_generic net msg (Some w) c in
  send_socket r.2 = send_socket c ∧ out r.2 = out c ∧
  open_sockets r.2 = open_sockets c ∧ connected r.2 = connected c ∧
  sockets_made r.2 = sockets_made c ∧
  (∃ events, wire r.2 = wire c ++ events) ∧
  (r.1 = Ok () →
     ∃ events, wire r.2 = wire c ++ events
                 ++ [EvWrite w (String (ascii_of_nat 10) ""); EvFlush w]).
Proof.
  intros r. unfold r, send_generic, try_except_OSError, writer_op.
  destruct (msg_write_ok net), (newline_write_ok net), (flush_ok net);
    run_io; rewrite <- ?app_assoc; simpl; split_and!; try done.
  all: try (intros _).
  all: first [ by eexists | by exists []; rewrite app_nil_r
             | by exists [EvWrite w msg] | by exists [] ].
Qed.

(** ** The listener around [exit] *)

Lemma step_ready e d d' :
  step e d = Some d' → ready d = false → ready d' = false.
Proof.
  destruct e; simpl.
  - destruct (listener_at d); intros [= <-]; done.
  - destruct (listener_at d); intros [= <-]; done.
  - destruct (listener_at d); intros [= <-]; done.
  - destruct (dispatcher d); intros [= <-]; done.
  - intros [= <-]; done.
Qed.

Lemma step_accept_budget e d d' :
  step e d = Some d' → ready d = false →
  (accepted d' + pending_accept d' ≤ accepted d + pending_accept d)%nat.
Proof.
  unfold pending_accept. destruct e; simpl.
  - destruct (listener_at d) eqn:Hpc; intros [= <-] Hready; simpl;
      rewrite ?Hpc, ?Hready; simpl; lia.
  - destruct (listener_at d) eqn:Hpc; intros [= <-] Hready; simpl; lia.
  - destruct (listener_at d) eqn:Hpc; intros [= <-] Hready; simpl; lia.
  - destruct (dispatcher d); intros [= <-] Hready; simpl; lia.
  - intros [= <-] Hready; simpl; lia.
Qed.

(** X15: once [ready] is cleared, the listener accepts at most one more
    connection, and only if it was already blocked in [accept]: however
    the steps of the threads interleave afterwards, the number of accepted
    connections grows by at most the one pending accept. *)
Theorem accepts_after_exit es :
  ∀ d, ready d = false →
    (accepted (run es d) ≤ accepted d + pending_accept d)%nat.
Proof.
  induction es as [|e es IH]; intros d Hready; simpl; [lia|].
  destruct (step e d) as [d'|] eqn:Hstep; simpl; [|by apply IH].
  pose proof (step_accept_budget _ _ _ Hstep Hready).
  pose proof (IH d' (step_ready _ _ _ Hstep Hready)). lia.
Qed.

Lemma accepts_after_exit_witness :
  (accepted (run [Accepted; MarkDispatching; LoopTest; Accepted]
               (run [LoopTest; Exit] dispatch_init)) ≤ 0 + 1)%nat.
Proof.
  apply (accepts_after_exit [Accepted; MarkDispatching; LoopTest; Accepted]
           (run [LoopTest; Exit] dispatch_init)).
  reflexivity.
Defined.

(** X16: while the listener is blocked in [accept], nothing but a new
    connection lets it return: in every run that takes the listener from
    [accept] to the end of [listen], an accept step occurs, so the [join]
    in [exit] waits for one more connection. *)
Theorem listener_returns_only_after_accept es :
  ∀ d, listener_at d = InAccept →
    listener_at (run es d) = Returned → Accepted ∈ es.
Proof.
  induction es as [|e es IH]; intros d Hpc; simpl.
  - rewrite Hpc. done.
  - intros Hret. apply elem_of_cons.
    destruct e; [right|by left|right|right|right];
      match goal with
      | H : listener_at (run es ?d') = Returned |- _ =>
          apply (IH d'); [|exact H]
      end; simpl; rewrite ?Hpc; simpl; try done.
    destruct (dispatcher d); simpl; done.
Qed.

Lemma listener_returns_only_after_accept_witness :
  Accepted ∈ [Accepted; MarkDispatching; LoopTest].
Proof.
  apply (listener_returns_only_after_accept
           [Accepted; MarkDispatching; LoopTest]
           (run [LoopTest; Exit] dispatch_init)); reflexivity.
Defined.

(** ** The launching constructor *)

Lemma poll_first_write fs p k e later :
  fs !! p = None →
  poll fs p (replicate k None ++ Some e :: later) = Some (<[p := e]> fs).
Proof.
  intros Hnone. induction k as [|k IH]; simpl.
  - rewrite Hnone. rewrite bool_decide_false by (by intros [? ?]).
    destruct later; simpl; rewrite lookup_insert_eq;
      by rewrite bool_decide_true by eauto.
  - rewrite Hnone. rewrite bool_decide_false by (by intros [? ?]). done.
Qed.

Lemma poll_never fs p k :
  fs !! p = None → poll fs p (replicate k None) = None.
Proof.
  intros Hnone. induction k as [|k IH]; simpl;
    rewrite Hnone; by rewrite bool_decide_false by (by intros [? ?]).
Qed.

Lemma get_port_insert fs p e process_pid verify :
  get_port (<[p := e]> fs) p process_pid verify
  = get_port {[ p := e ]} p process_pid verify.
Proof. unfold get_port. by rewrite lookup_insert_eq, lookup_singleton_eq. Qed.

Lemma unlink_then_popen fs exe_path exe_name first_line :
  exe_name ≠ PORTNUM →
  fs !! (exe_path ++ [exe_name]) = Some (File first_line) →
  fs !! (exe_path ++ [PORTNUM]) ≠ Some Directory →
  ∃ fs', unlink_if_exists fs (exe_path ++ [PORTNUM]) = Ok fs' ∧
         fs' !! (exe_path ++ [PORTNUM]) = None ∧
         popen fs' (exe_path ++ [exe_name]) = Ok ().
Proof.
  intros Hname Hexe Hdir.
  assert (exe_path ++ [PORTNUM] ≠ exe_path ++ [exe_name]) as Hne.
  { intros Heq. apply app_inv_head in Heq. congruence. }
  unfold unlink_if_exists, popen.
  destruct (fs !! (exe_path ++ [PORTNUM])) as [[|old]|] eqn:Hold.
  - done.
  - exists (delete (exe_path ++ [PORTNUM]) fs). split_and!; [done| |].
    + apply lookup_delete_eq.
    + rewrite lookup_delete_ne by done. by rewrite Hexe.
  - exists fs. split_and!; [done..|]. by rewrite Hexe.
Qed.

(** X18: the port the launching constructor passes on comes from the port
    file the launched executable writes, never from one left by an earlier
    run: with the executable in place, once the child has written the
    file, the result is what [get_port] reads from the written record with
    the child's pid, whatever the port file held before the launch. *)
Theorem launch_reads_fresh_file fs exe_path exe_name c verify_port
    first_line k e later :
  exe_name ≠ PORTNUM →
  fs !! (exe_path ++ [exe_name]) = Some (File first_line) →
  fs !! (exe_path ++ [PORTNUM]) ≠ Some Directory →
  child_writes c = replicate k None ++ Some e :: later →
  launch fs exe_path exe_name c verify_port
  = Some (get_port {[ exe_path ++ [PORTNUM] := e ]} (exe_path ++ [PORTNUM])
            (child_pid c) verify_port).
Proof.
  intros Hname Hexe Hdir Hwrites. unfold launch.
  destruct (unlink_then_popen _ _ _ _ Hname Hexe Hdir)
    as (fs' & -> & Hnone & ->).
  rewrite Hwrites, (poll_first_write _ _ _ _ _ Hnone). simpl.
  by rewrite get_port_insert.
Qed.

(** An installation with a port file left by an earlier run, and a child
    that writes its own record at the third poll. *)
Lemma launch_reads_fresh_file_witness :
  launch {[ ["opt"; "companions"; "CompanionsMicroServer64.exe"] := File None;
            sample_path := File (Some (JDict {[ "port" := JInt 4000;
                                                "pid" := JInt 1 ]})) ]}
         ["opt"; "companions"] "CompanionsMicroServer64.exe"
         {| child_pid := 7;
            child_writes := [None; None; Some (File (Some sample_record))] |}
         true
  = Some (Ok (JInt 9100)).
Proof.
  rewrite (launch_reads_fresh_file _ ["opt"; "companions"]
             "CompanionsMicroServer64.exe" _ true None 2
             (File (Some sample_record)) []);
    [reflexivity | done | reflexivity | done | reflexivity].
Defined.

(** X19: the wait for the port file has no bound: with the executable in
    place, for as long as the child has not written the file the
    constructor is still polling, however many polls have gone by. *)
Theorem launch_waits fs exe_path exe_name c verify_port first_line k :
  exe_name ≠ PORTNUM →
  fs !! (exe_path ++ [exe_name]) = Some (File first_line) →
  fs !! (exe_path ++ [PORTNUM]) ≠ Some Directory →
  child_writes c = replicate k None →
  launch fs exe_path exe_name c verify_port = None.
Proof.
  intros Hname Hexe Hdir Hwrites. unfold launch.
  destruct (unlink_then_popen _ _ _ _ Hname Hexe Hdir)
    as (fs' & -> & Hnone & ->).
  by rewrite Hwrites, (poll_never _ _ _ Hnone).
Qed.

Lemma launch_waits_witness :
  launch {[ ["opt"; "companions"; "CompanionsMicroServer64.exe"] := File None;
            sample_path := File (Some sample_record) ]}
         ["opt"; "companions"] "CompanionsMicroServer64.exe"
         {| child_pid := 7; child_writes := replicate 60 None |} true
  = None.
Proof.
  apply (launch_waits _ ["opt"; "companions"] "CompanionsMicroServer64.exe"
           _ true None 60);
    [done | reflexivity | done | reflexivity].
Defined.

(** ** Printed lists through the marshaller *)

Lemma str_app_cons c a b : String c a +:+ b = String c (a +:+ b).
Proof. reflexivity. Qed.

Lemma str_app_nil_l b : "" +:+ b = b.
Proof. reflexivity. Qed.

Lemma str_app_nil_r s : s +:+ "" = s.
Proof. induction s as [|c s IH]; rewrite ?str_app_cons, ?str_app_nil_l; [done|]. by f_equal. Qed.

Lemma str_app_assoc a b c : (a +:+ b) +:+ c = a +:+ (b +:+ c).
Proof. induction a as [|x a IH]; rewrite ?str_app_cons, ?str_app_nil_l; [done|]. by f_equal. Qed.

Lemma split_from_word w :
  ∀ acc s, has_whitespace w = false →
    split_from acc (w +:+ s) = split_from (acc +:+ w) s.
Proof.
  induction w as [|c w IH]; intros acc s Hw; rewrite ?str_app_cons, ?str_app_nil_l.
  - by rewrite str_app_nil_r.
  - simpl in Hw. apply orb_false_iff in Hw as [Hc Hw].
    simpl. rewrite Hc, IH by done. rewrite str_app_assoc. by rewrite ?str_app_cons, ?str_app_nil_l.
Qed.

(** [' '.join(ws).split() == ws] for plain words. *)
Lemma split_join ws : Forall plain_word ws → split (join_spaces ws) = ws.
Proof.
  unfold split. induction 1 as [|w ws [Hne Hw] _ IH]; [done|].
  destruct ws as [|w2 ws].
  - simpl. rewrite <- (str_app_nil_r w) at 1.
    rewrite split_from_word by done. rewrite ?str_app_cons, ?str_app_nil_l. simpl.
    by rewrite decide_False.
  - change (join_spaces (w :: w2 :: ws))
      with (w +:+ String " " (join_spaces (w2 :: ws))).
    rewrite split_from_word by done. rewrite ?str_app_cons, ?str_app_nil_l. simpl.
    rewrite decide_False by done. f_equal. exact IH.
Qed.

Lemma str_init_snoc j c : str_init (j +:+ String c "") = j.
Proof.
  induction j as [|x j IH]; rewrite ?str_app_cons, ?str_app_nil_l; [done|].
  simpl. rewrite IH. destruct j; by rewrite ?str_app_cons, ?str_app_nil_l.
Qed.

Lemma str_last_snoc j c : str_last (j +:+ String c "") = Some c.
Proof.
  induction j as [|x j IH]; rewrite ?str_app_cons, ?str_app_nil_l; [done|].
  simpl. rewrite IH. destruct j; by rewrite ?str_app_cons, ?str_app_nil_l.
Qed.

Lemma has_space_app a b : has_space (a +:+ b) = has_space a || has_space b.
Proof.
  induction a as [|x a IH]; rewrite ?str_app_cons, ?str_app_nil_l; simpl; [done|].
  by rewrite IH, orb_assoc.
Qed.

Lemma has_space_join w1 w2 ws : has_space (join_spaces (w1 :: w2 :: ws)) = true.
Proof.
  change (join_spaces (w1 :: w2 :: ws))
    with (w1 +:+ String " " (join_spaces (w2 :: ws))).
  rewrite has_space_app. simpl. apply orb_true_r.
Qed.

Lemma has_space_plain ws :
  (length ws ≤ 1)%nat → Forall plain_word ws →
  has_space (join_spaces ws) = false.
Proof.
  intros Hlen Hws. destruct ws as [|w [|w2 ws]]; [done| |simpl in Hlen; lia].
  apply Forall_cons in Hws as [[_ Hw] _]. simpl.
  destruct (has_space w) eqn:Hsp; [|done].
  apply has_space_whitespace in Hsp. congruence.
Qed.

Lemma kqml_str_tokens ws :
  kqml_str (KQMLList (map KQMLToken ws)) = "(" +:+ join_spaces ws +:+ ")".
Proof.
  assert (map kqml_str (map KQMLToken ws) = ws) as Hmap.
  { induction ws as [|w ws IH]; simpl; [done|]. by rewrite IH. }
  simpl. by rewrite Hmap.
Qed.

Lemma inner_parens j : str_inner ("(" +:+ j +:+ ")") = j.
Proof. rewrite ?str_app_cons, ?str_app_nil_l. simpl. apply str_init_snoc. Qed.

Lemma wrapped_parens j : wrapped ("(" +:+ j +:+ ")") = true.
Proof.
  rewrite ?str_app_cons, ?str_app_nil_l. unfold wrapped. simpl.
  pose proof (str_last_snoc j ")") as Hlast.
  destruct (j +:+ ")") eqn:Hj; [by destruct j|].
  by rewrite Hlast.
Qed.

(** X20: a list of two or more tokens, printed and handed to [listify] as
    a string, comes back as the same list of tokens. *)
Theorem listify_printed_list ws :
  (2 ≤ length ws)%nat → Forall plain_word ws →
  listify (PStr (kqml_str (KQMLList (map KQMLToken ws))))
  = KQMLList (map KQMLToken ws).
Proof.
  intros Hlen Hws. rewrite kqml_str_tokens.
  destruct (listify_wrapped ("(" +:+ join_spaces ws +:+ ")")) as [_ ->].
  - rewrite has_space_app, has_space_app.
    destruct ws as [|w1 [|w2 ws]]; simpl in Hlen; [lia..|].
    by rewrite has_space_join.
  - apply wrapped_parens.
  - by rewrite inner_parens, split_join.
Qed.

Lemma listify_printed_list_witness :
  listify (PStr (kqml_str (KQMLList [KQMLToken "isa"; KQMLToken "Fido";
                                      KQMLToken "Dog"])))
  = KQMLList [KQMLToken "isa"; KQMLToken "Fido"; KQMLToken "Dog"].
Proof.
  apply (listify_printed_list ["isa"; "Fido"; "Dog"]).
  - simpl. lia.
  - repeat constructor; done.
Defined.

(** X21: the printed form of a list of fewer than two tokens is not read
    back as a list: it has no space, so [listify] makes one token of the
    whole text, parentheses included. *)
Theorem listify_printed_short_list ws :
  (length ws ≤ 1)%nat → Forall plain_word ws →
  listify (PStr (kqml_str (KQMLList (map KQMLToken ws))))
  = KQMLToken (kqml_str (KQMLList (map KQMLToken ws))).
Proof.
  intros Hlen Hws. rewrite kqml_str_tokens.
  apply listify_no_space. rewrite !has_space_app.
  rewrite (has_space_plain ws Hlen Hws). done.
Qed.

Lemma listify_printed_short_list_witness :
  listify (PStr (kqml_str (KQMLList [KQMLToken "Fido"])))
  = KQMLToken "(Fido)".
Proof.
  apply (listify_printed_short_list ["Fido"]).
  - simpl. lia.
  - repeat constructor; done.
Defined.
